(** * Shipwreck.Phash.CrossCorrelation: a shallow embedding

    The perceptual-hash similarity kernel of [src/lib/phash/CrossCorrelation.cpp]:
    the normalised cross-correlation of two byte strips over all cyclic
    offsets, and the Hamming distance of 64-bit hash words.

    Modelling choices, fixed once for the whole file:
    - [float] is IEEE-754 binary32 with round-to-nearest-even, every operation
      rounded on its own (no contraction into fused multiply-add, no excess
      precision).  Values and operations are those of the Standard Library's
      [SpecFloat] at precision 24 and exponent bound 128.
    - [int] is a 32-bit two's-complement integer, carried as a [Z] with the
      wrap-around written out ([Int.wrap]); [uint64_t] and [int64_t]
      likewise ([U64.wrap], [I64.wrap]).
    - [std::vector<T>] is a [list T]; [operator[]] is [Vec.get], which answers
      [None] outside the vector, and every function that indexes is written
      in the option monad.  [None] also stands for a failed [assert] and for
      the vector constructor called with a negative length.
    - A raw pointer ([const uint8_t*]) is the array it points into, from the
      pointed-to element on, as a [list]; indexing past its end is [None]
      like any other index outside an object.
    - Of the test program [src/lib/phash/test_main.cpp], [main] is modelled
      with its output as the list of items inserted into [std::cout], and
      the random number generator as the sequence of values it returns. *)

From Stdlib Require Import ZArith List Bool Lia SpecFloat.
From Stdlib Require Import Strings.Byte.
From Stdlib Require Strings.String.
Import String.StringSyntax.
Import ListNotations.
Local Open Scope Z_scope.

(** * Part I: the program *)

(** ** The option monad of fallible code *)

Definition bind {A B : Type} (m : option A) (k : A -> option B) : option B :=
  match m with
  | Some a => k a
  | None => None
  end.

Notation "x <- m ;; k" := (bind m (fun x => k))
  (at level 61, m at next level, right associativity).

(** [assert(c)]: a failing assertion aborts the call. *)
Definition assert (c : bool) : option unit := if c then Some tt else None.

(** ** Machine integers *)

Module Int.
Definition min_value : Z := - 2 ^ 31.
Definition max_value : Z := 2 ^ 31 - 1.

(** Reduction of a mathematical integer to its two's-complement [int]. *)
Definition wrap (z : Z) : Z := (z + 2 ^ 31) mod 2 ^ 32 - 2 ^ 31.

Definition add (a b : Z) : Z := wrap (a + b).
Definition sub (a b : Z) : Z := wrap (a - b).
Definition mul (a b : Z) : Z := wrap (a * b).

(** [static_cast<int>(v.size())] *)
Definition of_size (n : nat) : Z := wrap (Z.of_nat n).
End Int.

Module U64.
Definition wrap (z : Z) : Z := z mod 2 ^ 64.
Definition add (a b : Z) : Z := wrap (a + b).
Definition sub (a b : Z) : Z := wrap (a - b).
Definition mul (a b : Z) : Z := wrap (a * b).
End U64.

Module I64.
(** The [int64_t] with the bit pattern of a mathematical integer. *)
Definition wrap (z : Z) : Z := (z + 2 ^ 63) mod 2 ^ 64 - 2 ^ 63.
End I64.

(** ** Single-precision [float] *)

Module F32.
Definition prec : Z := 24.
Definition emax : Z := 128.

Definition float : Type := spec_float.

Definition zero : float := S754_zero false.
Definition one : float := S754_finite false 8388608 (-23).

Definition add : float -> float -> float := SFadd prec emax.
Definition sub : float -> float -> float := SFsub prec emax.
Definition mul : float -> float -> float := SFmul prec emax.
Definition div : float -> float -> float := SFdiv prec emax.
Definition sqrt : float -> float := SFsqrt prec emax.
Definition ltb : float -> float -> bool := SFltb.
Definition eqb : float -> float -> bool := SFeqb.

(** Conversion of an integer to [float] (round to nearest even). *)
Definition of_int (z : Z) : float := binary_normalize prec emax z 0 false.

(** [std::max(a, b)] is [(a < b) ? b : a]. *)
Definition max (a b : float) : float := if ltb a b then b else a.

Definition is_nan (x : float) : bool :=
  match x with S754_nan => true | _ => false end.

Definition is_finite (x : float) : bool :=
  match x with S754_zero _ | S754_finite _ _ _ => true | _ => false end.


Definition sign (x : float) : bool :=
  match x with
  | S754_zero s | S754_infinity s | S754_finite s _ _ => s
  | S754_nan => false
  end.
End F32.

(** ** Vectors *)

Module Vec.
(** [v[i]] for an [int] index. *)
Definition get {A : Type} (v : list A) (i : Z) : option A :=
  if i <? 0 then None else nth_error v (Z.to_nat i).

(** [v[i] = a]; [None] outside the vector. *)
Fixpoint set_nat {A : Type} (v : list A) (i : nat) (a : A) : option (list A) :=
  match v, i with
  | [], _ => None
  | _ :: t, O => Some (a :: t)
  | h :: t, S k => t' <- set_nat t k a ;; Some (h :: t')
  end.

Definition set {A : Type} (v : list A) (i : Z) (a : A) : option (list A) :=
  if i <? 0 then None else set_nat v (Z.to_nat i) a.

(** [std::vector<float> v(n)] for an [int] n: zero-filled; the conversion of
    a negative [n] to [size_t] exceeds [max_size()] and the constructor
    throws. *)
Definition make (n : Z) : option (list F32.float) :=
  if n <? 0 then None else Some (repeat F32.zero (Z.to_nat n)).
End Vec.

(** ** Counted loops

    [for (i = lo; i < hi; i++) body] threads a state through the iterations
    [lo, lo+1, ..., hi-1]; the loop runs [hi - lo] times when that is
    positive and not at all otherwise. *)

Fixpoint for_loop {A : Type} (count : nat) (i : Z)
    (body : Z -> A -> option A) (a : A) : option A :=
  match count with
  | O => Some a
  | S k => a' <- body i a ;; for_loop k (i + 1) body a'
  end.

Definition for_range {A : Type} (lo hi : Z)
    (body : Z -> A -> option A) (a : A) : option A :=
  for_loop (Z.to_nat (hi - lo)) lo body a.

(** ** The offset kernel: [GetCrossCorrelationForOffset] (lines 91-112) *)

Record acc : Type := mkAcc { num : F32.float; denx : F32.float; deny : F32.float }.

(** Lines 93-95. *)
Definition acc0 : acc := mkAcc F32.zero F32.zero F32.zero.

(** Lines 103-107: one element pair folded into the three accumulators. *)
Definition accumulate (a : acc) (dx dy : F32.float) : acc :=
  mkAcc (F32.add (num a) (F32.mul dx dy))
        (F32.add (denx a) (F32.mul dx dx))
        (F32.add (deny a) (F32.mul dy dy)).

(** Lines 97-102 and 108-109: the two straight-line passes.  [size] is
    [static_cast<int>(x.size())]; [body i iy] stands for the loop body run
    with the [x] index [i] and the [y] index [i + yo]. *)
Definition two_pass {A : Type} (size offset : Z)
    (body : Z -> Z -> A -> option A) (a : A) : option A :=
  for_range 0 2
    (fun j a =>
       let th := if j =? 0 then Int.sub size offset else size in
       let i0 := if j =? 0 then 0 else Int.sub size offset in
       let yo := Int.sub offset (Int.mul j size) in
       for_range i0 th (fun i a => body i (Int.add i yo) a) a)
    a.

(** The loop body proper: read [x[i]] and [y[i + yo]], accumulate. *)
Definition kernel_body (x y : list F32.float) (i iy : Z) (a : acc) : option acc :=
  dx <- Vec.get x i ;;
  dy <- Vec.get y iy ;;
  Some (accumulate a dx dy).

Definition kernel_sums (x y : list F32.float) (offset : Z) : option acc :=
  two_pass (Int.of_size (length x)) offset (kernel_body x y) acc0.

(** Line 111; the literal [0] is an [int] converted to [float]. *)
Definition ratio (a : acc) : F32.float :=
  if F32.ltb (num a) (F32.of_int 0) || F32.eqb (denx a) (F32.of_int 0)
     || F32.eqb (deny a) (F32.of_int 0)
  then F32.of_int 0
  else F32.div (F32.mul (num a) (num a)) (F32.mul (denx a) (deny a)).

Definition GetCrossCorrelationForOffset (x y : list F32.float) (offset : Z)
    : option F32.float :=
  a <- kernel_sums x y offset ;;
  Some (ratio a).

(** ** The float core (lines 80-89): maximum over all offsets, square root

    The loop variable [d] is a [size_t]; the kernel receives
    [static_cast<int>(d)]. *)

Definition GetCrossCorrelationCore_float (x y : list F32.float) : option F32.float :=
  m <- for_range 0 (Z.of_nat (length x))
         (fun d m =>
            v <- GetCrossCorrelationForOffset x y (Int.wrap d) ;;
            Some (F32.max m v))
         F32.zero ;;
  Some (F32.sqrt m).

(** ** The byte core (lines 32-56): mean subtraction *)

Definition byte_val (b : byte) : Z := Z.of_N (Byte.to_N b).

(** Lines 39-42. *)
Definition sum_body (x y : list byte) (i : Z) (s : Z * Z) : option (Z * Z) :=
  xi <- Vec.get x i ;;
  yi <- Vec.get y i ;;
  Some (Int.add (fst s) (byte_val xi), Int.add (snd s) (byte_val yi)).

(** Lines 50-53; a byte is promoted to [int] and converted to [float]. *)
Definition center_body (x y : list byte) (meanX meanY : F32.float) (i : Z)
    (f : list F32.float * list F32.float) : option (list F32.float * list F32.float) :=
  xi <- Vec.get x i ;;
  yi <- Vec.get y i ;;
  fx <- Vec.set (fst f) i (F32.sub (F32.of_int (byte_val xi)) meanX) ;;
  fy <- Vec.set (snd f) i (F32.sub (F32.of_int (byte_val yi)) meanY) ;;
  Some (fx, fy).

Definition GetCrossCorrelationCore (x y : list byte) (length : Z) : option F32.float :=
  _ <- assert (length <=? Int.of_size (List.length x)) ;;
  _ <- assert (length <=? Int.of_size (List.length y)) ;;
  s <- for_range 0 length (sum_body x y) (0, 0) ;;
  let meanX := F32.div (F32.of_int (fst s)) (F32.of_int length) in
  let meanY := F32.div (F32.of_int (snd s)) (F32.of_int length) in
  fx0 <- Vec.make length ;;
  fy0 <- Vec.make length ;;
  f <- for_range 0 length (center_body x y meanX meanY) (fx0, fy0) ;;
  GetCrossCorrelationCore_float (fst f) (snd f).

(** ** The public entry point (lines 9-13)

    [std::min] of the two sizes is a [size_t]; it is passed for an [int]. *)

Definition GetCrossCorrelation (coefficients1 coefficients2 : list byte)
    : option F32.float :=
  GetCrossCorrelationCore coefficients1 coefficients2
    (Int.of_size (Nat.min (length coefficients1) (length coefficients2))).

(** ** Hamming distance (lines 15-29 and 114-126) *)

(** The number of set bits among the low [w] bits of [v]. *)
Definition popcount (w : nat) (v : Z) : Z :=
  Z.of_nat (length (filter (fun i => Z.testbit v (Z.of_nat i)) (seq 0 w))).

(** The compiler intrinsic [__builtin_popcountll]: by its contract, the
    number of 1-bits of its 64-bit argument. *)
Definition builtin_popcountll (v : Z) : Z := popcount 64 v.

(** Lines 123-125, on a [uint64_t]. *)
Definition swar_popcount (v : Z) : Z :=
  let v := U64.sub v (Z.land (Z.shiftr v 1) 0x5555555555555555) in
  let v := U64.add (Z.land v 0x3333333333333333)
                   (Z.land (Z.shiftr v 2) 0x3333333333333333) in
  Int.wrap
    (Z.shiftr
       (U64.mul (Z.land (U64.add v (Z.shiftr v 4)) 0xF0F0F0F0F0F0F0F) 0x101010101010101)
       56).

(** [popcnt] tells whether the translation unit is compiled with both
    [__x86_64__] and [__POPCNT__] defined. *)
Definition GetHammingDistanceCore (popcnt : bool) (v : Z) : Z :=
  if popcnt then Int.wrap (builtin_popcountll v) else swar_popcount v.

(** The four overloads of [GetHammingDistance]. *)
Definition GetHammingDistance_u64 (popcnt : bool) (v : Z) : Z :=
  GetHammingDistanceCore popcnt v.

Definition GetHammingDistance_i64 (popcnt : bool) (v : Z) : Z :=
  GetHammingDistanceCore popcnt (U64.wrap v).

Definition GetHammingDistance_u64_u64 (popcnt : bool) (x y : Z) : Z :=
  GetHammingDistance_u64 popcnt (Z.lxor x y).

Definition GetHammingDistance_i64_i64 (popcnt : bool) (x y : Z) : Z :=
  GetHammingDistance_u64 popcnt (U64.wrap (Z.lxor x y)).

(** ** The divisions a call performs

    The same code, each function also returning the float divisions it
    executed, in order.  Lines 44-45 divide by [static_cast<float>(length)];
    line 111 divides by [denx * deny] when none of its three checks fires. *)








(** ** The byte core on raw pointers (lines 58-78)

    A pointer is modelled by the array it points into, from the pointed-to
    element on; [x[i]] outside that array is [None].  The body is that of
    the vector overload without the two assertions. *)

Definition GetCrossCorrelationCore_ptr (x y : list byte) (length : Z) : option F32.float :=
  s <- for_range 0 length (sum_body x y) (0, 0) ;;
  let meanX := F32.div (F32.of_int (fst s)) (F32.of_int length) in
  let meanY := F32.div (F32.of_int (snd s)) (F32.of_int length) in
  fx0 <- Vec.make length ;;
  fy0 <- Vec.make length ;;
  f <- for_range 0 length (center_body x y meanX meanY) (fx0, fy0) ;;
  GetCrossCorrelationCore_float (fst f) (snd f).

(** ** The test program ([test_main.cpp], lines 8-56)

    What [main] inserts into [std::cout], in order: string literals, the
    [float] and [int] results, the two hashes, and the manipulators
    [std::hex] and [std::dec].  The formatting of each item is the
    stream's. *)

Bind Scope string_scope with String.string.

Inductive output : Type :=
| Text (s : String.string)
| Float (f : F32.float)
| Int32 (z : Z)
| UInt64 (z : Z)
| Hex
| Dec.

(** The character ['\n']. *)
Definition newline : String.string :=
  String.String (Ascii.ascii_of_nat 10) String.EmptyString.

(** Conversion of an [int] to [uint8_t]. *)
Definition to_uint8 (z : Z) : byte :=
  match Byte.of_N (Z.to_N (z mod 256)) with Some b => b | None => x00 end.

(** Lines 46-49: the [k]-th call of [dis(gen)] returns [dis k]; the state
    carries the two vectors and the number of calls made so far. *)
Definition fill_body (dis : nat -> Z) (i : Z) (st : list byte * list byte * nat)
    : option (list byte * list byte * nat) :=
  let '(d1, d2, k) := st in
  d1' <- Vec.set d1 i (to_uint8 (dis k)) ;;
  d2' <- Vec.set d2 i (to_uint8 (dis (S k))) ;;
  Some (d1', d2', S (S k)).

(** [main], given the random draws; [popcnt] as for the library.  The
    result is the exit status and the output. *)
Definition main (popcnt : bool) (dis : nat -> Z) : option (Z * list output) :=
  let out :=
    [Text (String.append "Phash Cross Correlation C++ Library Test" newline);
     Text (String.append "=========================================" (String.append newline newline));
     Text (String.append "Test 1: Cross Correlation" newline)] in
  let data1 := map to_uint8 [1; 2; 3; 4; 5; 6; 7; 8] in
  let data2 := map to_uint8 [2; 3; 4; 5; 6; 7; 8; 9] in
  correlation <- GetCrossCorrelation data1 data2 ;;
  let out := out ++
    [Text "Correlation between similar sequences: "; Float correlation;
     Text (String.append newline newline);
     Text (String.append "Test 2: Hamming Distance" newline)] in
  let hash1 := 0xAAAA in
  let hash2 := 0xAAAB in
  let distance := GetHammingDistance_u64_u64 popcnt hash1 hash2 in
  let out := out ++
    [Text "Hamming distance between 0x"; Hex; UInt64 hash1;
     Text " and 0x"; UInt64 hash2; Dec; Text ": "; Int32 distance; Text newline;
     Text (String.append newline (String.append "Test 3: Identical sequences" newline))] in
  correlation <- GetCrossCorrelation data1 data1 ;;
  let out := out ++
    [Text "Correlation between identical sequences: "; Float correlation; Text newline] in
  let distance := GetHammingDistance_u64_u64 popcnt hash1 hash1 in
  let out := out ++
    [Text "Hamming distance between identical hashes: "; Int32 distance; Text newline;
     Text (String.append newline
             (String.append "Test 4: Performance test with random data" newline))] in
  let large_data1 := repeat x00 1000 in
  let large_data2 := repeat x00 1000 in
  st <- for_range 0 1000 (fill_body dis) (large_data1, large_data2, 0%nat) ;;
  let '(large_data1, large_data2, _) := st in
  correlation <- GetCrossCorrelation large_data1 large_data2 ;;
  let out := out ++
    [Text "Correlation between 1000-element random sequences: "; Float correlation;
     Text newline;
     Text (String.append newline (String.append "All tests completed successfully!" newline))] in
  Some (0, out).

(** * Part II: the vocabulary of the properties *)

(** ** Preconditions *)

(** The length of a vector is an [int]. *)
Definition fits {A : Type} (v : list A) : Prop :=
  Z.of_nat (length v) <= Int.max_value.

(** The length of the common prefix of the two inputs. *)
Definition common (a b : list byte) : nat := Nat.min (length a) (length b).

(** A byte sequence all of whose elements are equal. *)
Definition constant (l : list byte) : Prop :=
  exists c, l = repeat c (length l).

(** ** The kernel as the spec writes it *)

(** One pass over [i] in [0, n) with [y] read at [(i + d) mod n]. *)
Definition one_pass_mod {A : Type} (n d : Z)
    (body : Z -> Z -> A -> option A) (a : A) : option A :=
  for_range 0 n (fun i a => body i ((i + d) mod n) a) a.

Definition kernel_sums_mod (x y : list F32.float) (d : Z) : option acc :=
  one_pass_mod (Z.of_nat (length x)) d (kernel_body x y) acc0.

(** A sum of [n] terms, added left to right from [0]. *)
Definition sum_over (n : nat) (term : nat -> F32.float) : F32.float :=
  fold_left (fun s i => F32.add s (term i)) (seq 0 n) F32.zero.

Definition x_at (x : list F32.float) (i : nat) : F32.float := nth i x F32.zero.

Definition y_at (y : list F32.float) (n d i : nat) : F32.float :=
  nth ((i + d) mod n) y F32.zero.

(** [num], [denx] and [deny] of section 4.2. *)
Definition num_spec (x y : list F32.float) (d : nat) : F32.float :=
  sum_over (length x) (fun i => F32.mul (x_at x i) (y_at y (length x) d i)).

Definition denx_spec (x : list F32.float) : F32.float :=
  sum_over (length x) (fun i => F32.mul (x_at x i) (x_at x i)).

Definition deny_spec (x y : list F32.float) (d : nat) : F32.float :=
  sum_over (length x) (fun i => F32.mul (y_at y (length x) d i) (y_at y (length x) d i)).

Definition ratio_spec (n dx dy : F32.float) : F32.float :=
  if F32.ltb n F32.zero || F32.eqb dx F32.zero || F32.eqb dy F32.zero
  then F32.zero
  else F32.div (F32.mul n n) (F32.mul dx dy).

Definition offset_value (x y : list F32.float) (d : nat) : F32.float :=
  ratio_spec (num_spec x y d) (denx_spec x) (deny_spec x y d).

Definition max_over_offsets (x y : list F32.float) : F32.float :=
  fold_left (fun m d => F32.max m (offset_value x y d)) (seq 0 (length x)) F32.zero.

(** Steps 2 to 4 of section 4.1. *)
Definition sum_bytes (l : list byte) : Z :=
  fold_left (fun s b => Int.add s (byte_val b)) l 0.

Definition mean_of (l : list byte) : F32.float :=
  F32.div (F32.of_int (sum_bytes l)) (F32.of_int (Z.of_nat (length l))).

Definition centered (m : F32.float) (l : list byte) : list F32.float :=
  map (fun b => F32.sub (F32.of_int (byte_val b)) m) l.

Definition mean_subtracted (l : list byte) : list F32.float :=
  centered (mean_of l) l.

(** ** Index pairs and element pairs of the kernel *)

(** The index pairs [(i, i + yo)] in the order the two passes form them. *)
Definition visited (size offset : Z) : option (list (Z * Z)) :=
  two_pass size offset (fun i iy l => Some (l ++ [(i, iy)])) [].

(** The index pairs of the modulus-based loop, in index order. *)
Definition mod_pairs (n : nat) (d : Z) : list (Z * Z) :=
  map (fun i => (Z.of_nat i, (Z.of_nat i + d) mod Z.of_nat n)) (seq 0 n).

Definition in_bounds (n : Z) (p : Z * Z) : Prop :=
  0 <= fst p < n /\ 0 <= snd p < n.



(** Cyclic rotation to the left by [k] places. *)
Definition rotate {A : Type} (k : nat) (l : list A) : list A :=
  skipn k l ++ firstn k l.

(** The offset of [(y, x)] that aligns the same elements as offset [d] of
    [(x, y)]. *)
Definition mirror (n d : nat) : nat := ((n - d) mod n)%nat.

(** ** Classes of float values *)

(** A mantissa of exactly 24 bits. *)
Definition normal24 (m : positive) : Prop := digits2_pos m = 24%positive.

(** Neither NaN nor negative: [+0], a positive finite value or [+inf]. *)
Definition nonneg (x : F32.float) : Prop :=
  F32.is_nan x = false /\ F32.sign x = false.





(** ** Hamming distance as the spec writes it *)

(** The number of positions below [w] at which [x] and [y] differ. *)
Definition differing_bits (w : nat) (x y : Z) : Z :=
  Z.of_nat (length (filter (fun i => xorb (Z.testbit x (Z.of_nat i)) (Z.testbit y (Z.of_nat i)))
                           (seq 0 w))).

(** ** Bytes of a word, for the SWAR argument *)

(** The word with the given bytes, least significant first. *)
Fixpoint from_bytes (l : list Z) : Z :=
  match l with
  | [] => 0
  | b :: t => b + 256 * from_bytes t
  end.

Definition is_byte (b : Z) : Prop := 0 <= b < 256.

Definition byte_range : list Z := map Z.of_nat (seq 0 256).

(** The three SWAR steps on one byte: counts of bit pairs, of nibbles, of
    the byte. *)
Definition pairs8 (b : Z) : Z := b - Z.land (Z.shiftr b 1) 0x55.
Definition nibbles8 (b : Z) : Z := Z.land b 0x33 + Z.land (Z.shiftr b 2) 0x33.
Definition fold8 (b : Z) : Z := b mod 16 + b / 16.

(** Both nibbles are at most 7, so their sum fits a nibble. *)
Definition small_nibbles (b : Z) : Prop := 0 <= b mod 16 <= 7 /\ 0 <= b / 16 <= 7.

Fixpoint sum_list (l : list Z) : Z :=
  match l with
  | [] => 0
  | c :: t => c + sum_list t
  end.

(** The checks that the three byte-local steps count the bits of a byte. *)
Definition byte_steps_ok (b : Z) : bool :=
  let p := pairs8 b in
  let n := nibbles8 b in
  (0 <=? p) && (p <? 256) && (0 <=? n) && (n <? 256)
  && (n mod 16 <=? 7) && (n / 16 <=? 7)
  && (fold8 (nibbles8 p) =? popcount 8 b) && (popcount 8 b <=? 8).

(** ** Sums, draws and printed values *)

(** The sum of the bytes as a mathematical integer. *)
Definition exact_sum (l : list byte) : Z := sum_list (map byte_val l).

(** The two vectors [main] fills from the draws. *)
Definition drawn (dis : nat -> Z) (parity n : nat) : list byte :=
  map (fun i => to_uint8 (dis (2 * i + parity)%nat)) (seq 0 n).

(** The items of the output other than string literals. *)
Definition values (out : list output) : list output :=
  filter (fun o => match o with Text _ => false | _ => true end) out.

(** ** Statements that do not hold for all inputs *)

(** "A constant side makes the score 0." *)
Definition constant_scores_zero : Prop :=
  forall a b : list byte,
    fits a -> fits b ->
    constant (firstn (common a b) a) \/ constant (firstn (common a b) b) ->
    GetCrossCorrelation a b = Some F32.zero.





(** ** Inputs of the worked examples *)

Definition byte_of (n : N) : byte :=
  match Byte.of_N n with Some b => b | None => x00 end.

Definition bytes (l : list N) : list byte := map byte_of l.

Definition sample_x : list F32.float := [F32.of_int 1; F32.of_int (-2); F32.of_int 3].
Definition sample_y : list F32.float := [F32.of_int 2; F32.of_int 5; F32.of_int (-4)].


(** 65795 bytes of value 255: the shortest run of equal bytes whose integer
    sum, here 16777725, [float] cannot hold. *)
Definition long_run : nat := Z.to_nat 65795.
Definition long_constant : list byte := repeat xff long_run.

(** * Part III: properties *)

(** ** The scenarios of the spec *)

Example scenario_S1 :
  GetCrossCorrelation (bytes [1;2;3;4;5;6;7;8]%N) (bytes [1;2;3;4;5;6;7;8]%N)
  = Some F32.one.
Proof. vm_compute. reflexivity. Qed.

Example scenario_S2 :
  GetCrossCorrelation (bytes [1;2;3;4;5;6;7;8]%N) (bytes [2;3;4;5;6;7;8;9]%N)
  = Some F32.one.
Proof. vm_compute. reflexivity. Qed.

Example scenario_S3 :
  GetCrossCorrelation (bytes [5;5;5;5]%N) (bytes [1;2;3;4]%N) = Some F32.zero.
Proof. vm_compute. reflexivity. Qed.

Example scenario_S4 : GetCrossCorrelation [] [] = Some F32.zero.
Proof. vm_compute. reflexivity. Qed.

Example scenario_S5 (popcnt : bool) :
  GetHammingDistance_u64_u64 popcnt 0xAAAA 0xAAAB = 1.
Proof. destruct popcnt; vm_compute; reflexivity. Qed.

Example scenario_S6 (popcnt : bool) :
  GetHammingDistance_u64_u64 popcnt 0xFFFFFFFFFFFFFFFF 0 = 64.
Proof. destruct popcnt; vm_compute; reflexivity. Qed.

Example scenario_S7 (popcnt : bool) :
  GetHammingDistance_u64 popcnt 0xAAAAAAAAAAAAAAAA = 32.
Proof. destruct popcnt; vm_compute; reflexivity. Qed.


(** ** Facts about [int] *)

Lemma int_wrap_small z :
  Int.min_value <= z <= Int.max_value -> Int.wrap z = z.
Proof.
  unfold Int.min_value, Int.max_value, Int.wrap. intros H.
  rewrite Z.mod_small by lia. lia.
Qed.

Lemma int_of_size_small n :
  Z.of_nat n <= Int.max_value -> Int.of_size n = Z.of_nat n.
Proof.
  intros H. unfold Int.of_size. apply int_wrap_small.
  unfold Int.min_value. lia.
Qed.

(** ** Facts about counted loops *)

Section Loops.
Context {A : Type}.
Implicit Types (body : Z -> A -> option A) (a : A).

Lemma for_loop_ext count : forall i body body' a,
  (forall j a, i <= j < i + Z.of_nat count -> body j a = body' j a) ->
  for_loop count i body a = for_loop count i body' a.
Proof.
  induction count as [|k IH]; intros i body body' a E; [reflexivity|].
  cbn [for_loop]. rewrite E by lia.
  destruct (body' i a) as [a'|]; [cbn [bind]|reflexivity].
  apply IH. intros j b Hj. apply E. lia.
Qed.

Lemma for_loop_app k1 : forall k2 i body a,
  for_loop (k1 + k2) i body a =
  (a' <- for_loop k1 i body a ;; for_loop k2 (i + Z.of_nat k1) body a').
Proof.
  induction k1 as [|k IH]; intros k2 i body a.
  - cbn. now rewrite Z.add_0_r.
  - cbn [for_loop Nat.add]. destruct (body i a) as [a'|]; [cbn [bind]|reflexivity].
    rewrite IH. replace (i + 1 + Z.of_nat k) with (i + Z.of_nat (S k)) by lia.
    reflexivity.
Qed.


End Loops.

Lemma two_pass_is_one_pass_mod {A : Type} (n d : Z)
    (body : Z -> Z -> A -> option A) (a : A) :
  0 <= d < n -> n <= Int.max_value ->
  two_pass n d body a = one_pass_mod n d body a.
Proof.
  intros Hd Hn. unfold Int.max_value in Hn.
  assert (W : forall z, - 2 ^ 31 <= z <= 2 ^ 31 - 1 -> Int.wrap z = z)
    by (intros; now apply int_wrap_small).
  unfold two_pass, one_pass_mod, for_range.
  change (Z.to_nat (2 - 0)) with 2%nat. cbn [for_loop].
  change (0 =? 0) with true. change (0 + 1 =? 0) with false. cbv beta iota zeta.
  unfold Int.sub, Int.mul, Int.add.
  rewrite Z.mul_0_l, Z.mul_1_l, (W 0), (W n), !Z.sub_0_r, (W d), (W (n - d)), (W (d - n)) by lia.
  replace (Z.to_nat n) with (Z.to_nat (n - d) + Z.to_nat (n - (n - d)))%nat by lia.
  rewrite for_loop_app.
  rewrite (for_loop_ext _ 0 (fun i a => body i (Int.wrap (i + d)) a)
             (fun i a => body i ((i + d) mod n) a)).
  2:{ intros j b Hj. rewrite W by lia. now rewrite Z.mod_small by lia. }
  destruct (for_loop _ 0 _ a) as [a1|]; [cbn [bind]|reflexivity].
  replace (0 + Z.of_nat (Z.to_nat (n - d))) with (n - d) by lia.
  rewrite (for_loop_ext _ (n - d) (fun i a => body i (Int.wrap (i + (d - n))) a)
             (fun i a => body i ((i + d) mod n) a)).
  2:{ intros j b Hj. rewrite W by lia. f_equal.
      apply Z.mod_unique with (q := 1); lia. }
  now destruct (for_loop _ (n - d) _ a1).
Qed.

(** ** Facts about vectors *)

Lemma get_of_nat {A : Type} (v : list A) (i : nat) (dflt : A) :
  (i < length v)%nat -> Vec.get v (Z.of_nat i) = Some (nth i v dflt).
Proof.
  intros H. unfold Vec.get.
  destruct (Z.ltb_spec (Z.of_nat i) 0) as [N|_]; [lia|].
  rewrite Nat2Z.id. now apply nth_error_nth'.
Qed.

Lemma get_in_range {A : Type} (v : list A) (i : Z) :
  0 <= i < Z.of_nat (length v) -> Vec.get v i <> None.
Proof.
  intros H. unfold Vec.get.
  destruct (Z.ltb_spec i 0) as [N|_]; [lia|].
  apply nth_error_Some. lia.
Qed.

(** A loop whose body is a total function of the index is a left fold. *)
Lemma for_loop_pure {A : Type} (f : nat -> A -> A) count :
  forall s (body : Z -> A -> option A) a,
    (forall j a, (s <= j < s + count)%nat -> body (Z.of_nat j) a = Some (f j a)) ->
    for_loop count (Z.of_nat s) body a = Some (fold_left (fun a j => f j a) (seq s count) a).
Proof.
  induction count as [|k IH]; intros s body a Hb; [reflexivity|].
  cbn [for_loop seq fold_left]. rewrite Hb by lia. cbn [bind].
  replace (Z.of_nat s + 1) with (Z.of_nat (S s)) by lia.
  apply IH. intros j b Hj. apply Hb. lia.
Qed.

Lemma fold_accumulate (X Y : nat -> F32.float) (l : list nat) : forall a,
  fold_left (fun a j => accumulate a (X j) (Y j)) l a =
  mkAcc (fold_left (fun s j => F32.add s (F32.mul (X j) (Y j))) l (num a))
        (fold_left (fun s j => F32.add s (F32.mul (X j) (X j))) l (denx a))
        (fold_left (fun s j => F32.add s (F32.mul (Y j) (Y j))) l (deny a)).
Proof.
  induction l as [|j l IH]; intros [n dx dy]; [reflexivity|].
  cbn [fold_left]. now rewrite IH.
Qed.

Lemma mod_of_nat (i d n : nat) :
  (0 < n)%nat -> (Z.of_nat i + Z.of_nat d) mod Z.of_nat n = Z.of_nat ((i + d) mod n).
Proof.
  intros Hn. rewrite <- Nat2Z.inj_add. symmetry. apply Nat2Z.inj_mod.
Qed.

(** The accumulators of the kernel, in closed form. *)
Lemma kernel_sums_closed (x y : list F32.float) (d : nat) :
  length x = length y -> (d < length x)%nat ->
  Z.of_nat (length x) <= Int.max_value ->
  kernel_sums x y (Z.of_nat d) =
  Some (mkAcc (num_spec x y d) (denx_spec x) (deny_spec x y d)).
Proof.
  intros Hl Hd Hn. unfold kernel_sums.
  rewrite int_of_size_small by exact Hn.
  rewrite two_pass_is_one_pass_mod by lia.
  unfold one_pass_mod, for_range. rewrite Z.sub_0_r, Nat2Z.id.
  change 0 with (Z.of_nat 0).
  rewrite (for_loop_pure
             (fun j a => accumulate a (x_at x j) (y_at y (length x) d j))).
  - now rewrite fold_accumulate.
  - intros j a Hj. unfold kernel_body, x_at, y_at.
    rewrite (get_of_nat x j F32.zero) by lia. cbn [bind].
    rewrite mod_of_nat by lia.
    rewrite (get_of_nat y _ F32.zero); [reflexivity|].
    rewrite <- Hl. apply Nat.mod_upper_bound. lia.
Qed.

(** ** C1: the value of the offset kernel *)

Lemma offset_kernel_closed (x y : list F32.float) (d : nat) :
  length x = length y -> (d < length x)%nat ->
  Z.of_nat (length x) <= Int.max_value ->
  GetCrossCorrelationForOffset x y (Z.of_nat d) = Some (offset_value x y d).
Proof.
  intros Hl Hd Hn. unfold GetCrossCorrelationForOffset.
  rewrite kernel_sums_closed by assumption. reflexivity.
Qed.

(** C1.  For float vectors [x], [y] of one length [n] (an [int]) and an offset
    [d < n], the offset kernel returns 0 when [num < 0], [denx == 0] or
    [deny == 0], and [num * num / (denx * deny)] otherwise, where the three
    sums run over [i] in [0, n) with [y] read at [(i + d) mod n]. *)
Theorem kernel_value (x y : list F32.float) (d : nat) :
  length x = length y -> (d < length x)%nat ->
  Z.of_nat (length x) <= Int.max_value ->
  GetCrossCorrelationForOffset x y (Z.of_nat d) =
  Some (if F32.ltb (num_spec x y d) F32.zero
           || F32.eqb (denx_spec x) F32.zero
           || F32.eqb (deny_spec x y d) F32.zero
        then F32.zero
        else F32.div (F32.mul (num_spec x y d) (num_spec x y d))
                     (F32.mul (denx_spec x) (deny_spec x y d))).
Proof.
  intros Hl Hd Hn. unfold GetCrossCorrelationForOffset.
  rewrite kernel_sums_closed by assumption. cbn [bind].
  unfold ratio. change (F32.of_int 0) with F32.zero. reflexivity.
Qed.

Lemma kernel_value_witness :
  GetCrossCorrelationForOffset sample_x sample_y (Z.of_nat 1) =
  Some (F32.div (F32.of_int 361) (F32.of_int 630)).
Proof.
  rewrite (kernel_value sample_x sample_y 1).
  - vm_compute. reflexivity.
  - reflexivity.
  - cbn. lia.
  - cbn. unfold Int.max_value. lia.
Defined.

(** ** C8 and C10: the index pairs of the two passes *)

Lemma fold_left_snoc {I B : Type} (g : I -> B) (js : list I) : forall l0,
  fold_left (fun l j => l ++ [g j]) js l0 = l0 ++ map g js.
Proof.
  induction js as [|j js IH]; intros l0; cbn [fold_left map].
  - now rewrite app_nil_r.
  - rewrite IH, <- app_assoc. reflexivity.
Qed.

Lemma visited_closed (n : nat) (d : Z) :
  0 <= d < Z.of_nat n -> Z.of_nat n <= Int.max_value ->
  visited (Z.of_nat n) d = Some (mod_pairs n d).
Proof.
  intros Hd Hn. unfold visited.
  rewrite two_pass_is_one_pass_mod by lia.
  unfold one_pass_mod, for_range. rewrite Z.sub_0_r, Nat2Z.id.
  change 0 with (Z.of_nat 0).
  rewrite (for_loop_pure
             (fun j l => l ++ [(Z.of_nat j, (Z.of_nat j + d) mod Z.of_nat n)])).
  - now rewrite (fold_left_snoc
                   (fun j => (Z.of_nat j, (Z.of_nat j + d) mod Z.of_nat n))).
  - reflexivity.
Qed.

Lemma mod_pairs_in_bounds (n : nat) (d : Z) :
  Forall (in_bounds (Z.of_nat n)) (mod_pairs n d).
Proof.
  apply Forall_forall. intros p Hp. unfold mod_pairs in Hp.
  apply in_map_iff in Hp. destruct Hp as [i [<- Hi]].
  apply in_seq in Hi. unfold in_bounds. cbn [fst snd].
  split; [lia|]. apply Z.mod_pos_bound. lia.
Qed.

(** C8.  For equal-length float vectors and an offset [d] in [0, n), the two
    straight-line passes run any loop body on the same index pairs, in the
    same order, as the single loop that reads [y] at [(i + d) mod n]; in
    particular they accumulate the same [num], [denx] and [deny]. *)
Theorem two_pass_refines_modulus (x y : list F32.float) (d : Z) :
  length x = length y ->
  0 <= d < Z.of_nat (length x) ->
  Z.of_nat (length x) <= Int.max_value ->
  (forall (A : Type) (body : Z -> Z -> A -> option A) (a : A),
      two_pass (Int.of_size (length x)) d body a =
      one_pass_mod (Z.of_nat (length x)) d body a)
  /\ visited (Int.of_size (length x)) d = Some (mod_pairs (length x) d)
  /\ exists s, kernel_sums x y d = Some s /\ kernel_sums_mod x y d = Some s.
Proof.
  intros Hl Hd Hn. rewrite int_of_size_small by exact Hn.
  split; [|split].
  - intros A body a. apply two_pass_is_one_pass_mod; lia.
  - now apply visited_closed.
  - assert (E : kernel_sums x y d = kernel_sums_mod x y d).
    { unfold kernel_sums, kernel_sums_mod.
      rewrite int_of_size_small by exact Hn.
      apply two_pass_is_one_pass_mod; lia. }
    rewrite <- E. replace d with (Z.of_nat (Z.to_nat d)) by lia.
    rewrite kernel_sums_closed by lia. eauto.
Qed.

Lemma two_pass_refines_modulus_witness :
  visited (Int.of_size (length sample_x)) 1 = Some [(0, 1); (1, 2); (2, 0)].
Proof.
  apply (two_pass_refines_modulus sample_x sample_y 1).
  - reflexivity.
  - cbn. lia.
  - cbn. unfold Int.max_value. lia.
Defined.

(** C10.  Under the kernel's precondition (equal lengths, [n] an [int],
    [0 <= d < n]) every pair of indices the two inner loops form lies in
    [0, n) on both sides, both reads of every pair succeed, and the kernel
    returns a value. *)
Theorem kernel_reads_in_bounds (x y : list F32.float) (d : Z) :
  length x = length y ->
  0 <= d < Z.of_nat (length x) ->
  Z.of_nat (length x) <= Int.max_value ->
  exists l,
    visited (Int.of_size (length x)) d = Some l
    /\ length l = length x
    /\ Forall (in_bounds (Z.of_nat (length x))) l
    /\ Forall (fun p => Vec.get x (fst p) <> None /\ Vec.get y (snd p) <> None) l
    /\ GetCrossCorrelationForOffset x y d <> None.
Proof.
  intros Hl Hd Hn. exists (mod_pairs (length x) d).
  rewrite int_of_size_small by exact Hn.
  split; [now apply visited_closed|].
  split; [unfold mod_pairs; now rewrite length_map, length_seq|].
  split; [apply mod_pairs_in_bounds|].
  split.
  - eapply Forall_impl; [|apply mod_pairs_in_bounds].
    intros p [Hx Hy]. split; apply get_in_range; [exact Hx|].
    rewrite <- Hl. exact Hy.
  - unfold GetCrossCorrelationForOffset.
    replace d with (Z.of_nat (Z.to_nat d)) by lia.
    rewrite kernel_sums_closed by lia. discriminate.
Qed.

Lemma kernel_reads_in_bounds_witness :
  exists l,
    visited (Int.of_size (length sample_x)) 2 = Some l
    /\ length l = length sample_x
    /\ Forall (in_bounds (Z.of_nat (length sample_x))) l
    /\ Forall (fun p => Vec.get sample_x (fst p) <> None
                        /\ Vec.get sample_y (snd p) <> None) l
    /\ GetCrossCorrelationForOffset sample_x sample_y 2 <> None.
Proof.
  apply (kernel_reads_in_bounds sample_x sample_y 2).
  - reflexivity.
  - cbn. lia.
  - cbn. unfold Int.max_value. lia.
Defined.

(** ** C3: the SWAR population count *)


Lemma byte_cases (t : Z -> bool) :
  forallb t byte_range = true -> forall b, is_byte b -> t b = true.
Proof.
  intros H b Hb. rewrite forallb_forall in H. apply H.
  unfold byte_range. apply in_map_iff. exists (Z.to_nat b). split; [unfold is_byte in Hb; lia|].
  apply in_seq. unfold is_byte in Hb. lia.
Qed.

Lemma from_bytes_bounds l :
  Forall is_byte l -> 0 <= from_bytes l < 256 ^ Z.of_nat (length l).
Proof.
  induction 1 as [|b t Hb _ IH]; [cbn; lia|].
  cbn [from_bytes length]. rewrite Nat2Z.inj_succ, Z.pow_succ_r by lia.
  unfold is_byte in Hb. lia.
Qed.

Lemma to_bytes n : forall v,
  0 <= v < 256 ^ Z.of_nat n ->
  exists l, length l = n /\ Forall is_byte l /\ v = from_bytes l.
Proof.
  induction n as [|n IH]; intros v Hv.
  - exists []. cbn in *. repeat split; [constructor|lia].
  - rewrite Nat2Z.inj_succ, Z.pow_succ_r in Hv by lia.
    destruct (IH (v / 256)) as [t [Hl [Hf Ht]]].
    { split; [apply Z.div_pos; lia|apply Z.div_lt_upper_bound; lia]. }
    exists (v mod 256 :: t). cbn [length from_bytes]. repeat split.
    + now rewrite Hl.
    + constructor; [|exact Hf]. apply Z.mod_pos_bound. lia.
    + rewrite <- Ht. pose proof (Z.div_mod v 256). lia.
Qed.

Lemma testbit_high (m k j : Z) :
  0 <= m < 2 ^ k -> 0 <= k <= j -> Z.testbit m j = false.
Proof.
  intros Hm Hk. rewrite <- (Z.mod_small m (2 ^ k)) by exact Hm.
  apply Z.mod_pow2_bits_high. lia.
Qed.

Lemma testbit_cons (b W j : Z) :
  is_byte b -> 0 <= j ->
  Z.testbit (b + 256 * W) j = if j <? 8 then Z.testbit b j else Z.testbit W (j - 8).
Proof.
  intros Hb Hj. unfold is_byte in Hb.
  destruct (Z.ltb_spec j 8) as [L|G].
  - rewrite <- (Z.mod_pow2_bits_low (b + 256 * W) 8 j) by lia.
    f_equal. change (2 ^ 8) with 256.
    replace (b + 256 * W) with (b + W * 256) by lia.
    rewrite Z.mod_add by lia. apply Z.mod_small. lia.
  - replace j with ((j - 8) + 8) at 1 by lia.
    rewrite <- Z.div_pow2_bits by lia. f_equal. change (2 ^ 8) with 256.
    replace (b + 256 * W) with (b + W * 256) by lia.
    rewrite Z.div_add by lia.
    rewrite (Z.div_small b 256) by lia. lia.
Qed.

Lemma land_byte (a mu : Z) : is_byte mu -> is_byte (Z.land a mu).
Proof.
  intros Hmu. unfold is_byte in *.
  assert (E : Z.land a mu = Z.land a mu mod 2 ^ 8).
  { rewrite <- Z.land_ones by lia. rewrite <- Z.land_assoc. f_equal.
    rewrite Z.land_ones by lia. symmetry. apply Z.mod_small. exact Hmu. }
  rewrite E. apply Z.mod_pos_bound. lia.
Qed.

(** Shift-and-mask acts byte by byte when the mask byte clears the bits that
    the shift brings in from the next byte. *)
Lemma shr_mask_cons (k mu b W M : Z) :
  0 <= k <= 8 -> 0 <= mu < 2 ^ (8 - k) -> is_byte b -> 0 <= W -> 0 <= M ->
  Z.land (Z.shiftr (b + 256 * W) k) (mu + 256 * M) =
  Z.land (Z.shiftr b k) mu + 256 * Z.land (Z.shiftr W k) M.
Proof.
  intros Hk Hmu Hb HW HM.
  assert (Hmu8 : is_byte mu).
  { unfold is_byte. split; [lia|]. apply Z.lt_le_trans with (2 ^ (8 - k)); [lia|].
    change 256 with (2 ^ 8). apply Z.pow_le_mono_r; lia. }
  assert (Hl : is_byte (Z.land (Z.shiftr b k) mu)) by now apply land_byte.
  apply Z.bits_inj'. intros j Hj.
  rewrite (testbit_cons _ _ j Hl Hj).
  rewrite !Z.land_spec, !Z.shiftr_spec by lia.
  rewrite (testbit_cons b W (j + k) Hb) by lia.
  rewrite (testbit_cons mu M j Hmu8 Hj).
  destruct (Z.ltb_spec j 8) as [L|G].
  - destruct (Z.ltb_spec (j + k) 8) as [L'|G']; [reflexivity|].
    rewrite (testbit_high mu (8 - k) j) by lia. now rewrite !andb_false_r.
  - destruct (Z.ltb_spec (j + k) 8) as [L'|G']; [lia|].
    rewrite Z.shiftr_spec by lia.
    do 2 f_equal. lia.
Qed.

Lemma shr_mask_bytes (k mu : Z) (l : list Z) :
  0 <= k <= 8 -> 0 <= mu < 2 ^ (8 - k) -> Forall is_byte l ->
  Z.land (Z.shiftr (from_bytes l) k) (from_bytes (repeat mu (length l))) =
  from_bytes (map (fun b => Z.land (Z.shiftr b k) mu) l).
Proof.
  intros Hk Hmu. induction 1 as [|b t Hb Ht IH].
  - cbn. rewrite Z.shiftr_0_l. reflexivity.
  - cbn [from_bytes length repeat map].
    rewrite shr_mask_cons; try assumption.
    + now rewrite IH.
    + apply from_bytes_bounds. exact Ht.
    + apply from_bytes_bounds. apply Forall_forall. intros m Hm.
      apply repeat_spec in Hm. subst m. unfold is_byte. split; [lia|].
      apply Z.lt_le_trans with (2 ^ (8 - k)); [lia|].
      change 256 with (2 ^ 8). apply Z.pow_le_mono_r; lia.
Qed.

Lemma from_bytes_sub (f g : Z -> Z) (l : list Z) :
  from_bytes (map f l) - from_bytes (map g l) = from_bytes (map (fun b => f b - g b) l).
Proof. induction l as [|b t IH]; cbn [map from_bytes]; lia. Qed.

Lemma from_bytes_add (f g : Z -> Z) (l : list Z) :
  from_bytes (map f l) + from_bytes (map g l) = from_bytes (map (fun b => f b + g b) l).
Proof. induction l as [|b t IH]; cbn [map from_bytes]; lia. Qed.

Lemma u64_wrap_bytes (l : list Z) :
  length l = 8%nat -> Forall is_byte l -> U64.wrap (from_bytes l) = from_bytes l.
Proof.
  intros Hl Hf. unfold U64.wrap. apply Z.mod_small.
  pose proof (from_bytes_bounds l Hf) as B. rewrite Hl in B. exact B.
Qed.

Lemma Forall_map_byte (f : Z -> Z) (P Q : Z -> Prop) (l : list Z) :
  (forall b, P b -> Q (f b)) -> Forall P l -> Forall Q (map f l).
Proof.
  intros H. induction 1; cbn [map]; constructor; auto.
Qed.

Lemma fold_nibbles_cons (b W : Z) :
  small_nibbles b -> 0 <= W ->
  b + 256 * W + Z.shiftr (b + 256 * W) 4 =
  (b + b / 16 + 16 * (W mod 16)) + 256 * (W + Z.shiftr W 4).
Proof.
  intros Hb HW. rewrite !Z.shiftr_div_pow2 by lia. change (2 ^ 4) with 16.
  replace (b + 256 * W) with (b + (16 * W) * 16) by lia.
  rewrite Z.div_add by lia.
  pose proof (Z.div_mod W 16). lia.
Qed.

Lemma fold_nibbles_bytes (l : list Z) :
  Forall small_nibbles l ->
  Z.land (from_bytes l + Z.shiftr (from_bytes l) 4) (from_bytes (repeat 0x0F (length l))) =
  from_bytes (map fold8 l).
Proof.
  induction 1 as [|b t Hb Ht IH]; [reflexivity|].
  cbn [from_bytes length repeat map].
  assert (HW : 0 <= from_bytes t).
  { apply from_bytes_bounds. eapply Forall_impl; [|exact Ht].
    intros c [Hc1 Hc2]. unfold is_byte. pose proof (Z.div_mod c 16). lia. }
  rewrite fold_nibbles_cons by assumption.
  assert (Hlow : 0 <= from_bytes t mod 16 <= 7).
  { destruct Ht as [|c t' [Hc _] _]; [cbn; lia|]. cbn [from_bytes].
    replace (c + 256 * from_bytes t') with (c + (16 * from_bytes t') * 16) by lia.
    now rewrite Z.mod_add by lia. }
  destruct Hb as [Hb1 Hb2]. pose proof (Z.div_mod b 16) as Eb.
  assert (Hsh : 0 <= Z.shiftr (from_bytes t) 4) by (apply Z.shiftr_nonneg; lia).
  pose proof (shr_mask_cons 0 0x0F (b + b / 16 + 16 * (from_bytes t mod 16))
                (from_bytes t + Z.shiftr (from_bytes t) 4)
                (from_bytes (repeat 0x0F (length t)))) as S.
  rewrite !Z.shiftr_0_r in S. rewrite S; clear S.
  - rewrite IH. f_equal. unfold fold8.
    change 15 with (Z.ones 4). rewrite Z.land_ones by lia. change (2 ^ 4) with 16.
    replace (b + b / 16 + 16 * (from_bytes t mod 16))
      with ((b mod 16 + b / 16) + (b / 16 + from_bytes t mod 16) * 16) by lia.
    rewrite Z.mod_add by lia. apply Z.mod_small. lia.
  - lia.
  - cbn. lia.
  - unfold is_byte. lia.
  - lia.
  - apply from_bytes_bounds. apply Forall_forall. intros m Hm.
    apply repeat_spec in Hm. subst m. unfold is_byte. lia.
Qed.

Lemma sum_bytes_top (c0 c1 c2 c3 c4 c5 c6 c7 : Z) :
  0 <= c0 <= 8 -> 0 <= c1 <= 8 -> 0 <= c2 <= 8 -> 0 <= c3 <= 8 ->
  0 <= c4 <= 8 -> 0 <= c5 <= 8 -> 0 <= c6 <= 8 -> 0 <= c7 <= 8 ->
  Z.shiftr (U64.mul (from_bytes [c0; c1; c2; c3; c4; c5; c6; c7]) 0x101010101010101) 56
  = c0 + c1 + c2 + c3 + c4 + c5 + c6 + c7.
Proof.
  intros. unfold U64.mul, U64.wrap. rewrite Z.shiftr_div_pow2 by lia.
  cbn [from_bytes].
  set (s0 := c0). set (s1 := s0 + c1). set (s2 := s1 + c2). set (s3 := s2 + c3).
  set (s4 := s3 + c4). set (s5 := s4 + c5). set (s6 := s5 + c6). set (s7 := s6 + c7).
  set (low := s0 + 256 * (s1 + 256 * (s2 + 256 * (s3 + 256 * (s4 + 256 * (s5 + 256 * s6)))))).
  set (high := (s7 - s0) + 256 * ((s7 - s1) + 256 * ((s7 - s2) + 256 * ((s7 - s3)
                 + 256 * ((s7 - s4) + 256 * ((s7 - s5) + 256 * (s7 - s6))))))).
  change (2 ^ 64) with 18446744073709551616.
  change (2 ^ 56) with 72057594037927936.
  rewrite <- (Z.mod_unique _ _ high (low + 72057594037927936 * s7)).
  - symmetry. apply (Z.div_unique _ _ _ low); subst low s7 s6 s5 s4 s3 s2 s1 s0; lia.
  - left. subst low s7 s6 s5 s4 s3 s2 s1 s0. lia.
  - subst high low s7 s6 s5 s4 s3 s2 s1 s0. lia.
Qed.

Lemma count_bits_shift (b W : Z) (w : nat) : is_byte b -> forall s,
  length (filter (fun i => Z.testbit (b + 256 * W) (Z.of_nat i)) (seq (8 + s) w)) =
  length (filter (fun i => Z.testbit W (Z.of_nat i)) (seq s w)).
Proof.
  intros Hb. induction w as [|w IH]; intros s; [reflexivity|].
  cbn [seq filter]. rewrite testbit_cons by (exact Hb || lia).
  destruct (Z.ltb_spec (Z.of_nat (8 + s)) 8) as [L|_]; [lia|].
  replace (Z.of_nat (8 + s) - 8) with (Z.of_nat s) by lia.
  specialize (IH (S s)). replace (8 + S s)%nat with (S (8 + s)) in IH by lia.
  destruct (Z.testbit W (Z.of_nat s)); cbn [length]; now rewrite IH.
Qed.

Lemma popcount_cons (b W : Z) (w : nat) :
  is_byte b -> popcount (8 + w) (b + 256 * W) = popcount 8 b + popcount w W.
Proof.
  intros Hb. unfold popcount.
  rewrite seq_app, filter_app, length_app, Nat2Z.inj_add. f_equal.
  - do 2 f_equal. apply filter_ext_in. intros i Hi. apply in_seq in Hi.
    rewrite testbit_cons by (exact Hb || lia).
    destruct (Z.ltb_spec (Z.of_nat i) 8); [reflexivity|lia].
  - f_equal. change (0 + 8)%nat with (8 + 0)%nat. now apply count_bits_shift.
Qed.

Lemma sum_list_bounds (l : list Z) :
  Forall (fun c => 0 <= c <= 8) l -> 0 <= sum_list l <= 8 * Z.of_nat (length l).
Proof.
  induction 1 as [|c t Hc _ IH]; cbn [sum_list length]; lia.
Qed.

Lemma popcount_bytes (l : list Z) :
  Forall is_byte l ->
  popcount (8 * length l) (from_bytes l) = sum_list (map (popcount 8) l).
Proof.
  induction 1 as [|b t Hb Ht IH]; [reflexivity|].
  cbn [length from_bytes map sum_list].
  replace (8 * S (length t))%nat with (8 + 8 * length t)%nat by lia.
  rewrite popcount_cons by exact Hb. now rewrite IH.
Qed.

Lemma byte_steps (b : Z) :
  is_byte b ->
  is_byte (pairs8 b) /\ is_byte (nibbles8 b) /\ small_nibbles (nibbles8 b)
  /\ fold8 (nibbles8 (pairs8 b)) = popcount 8 b
  /\ 0 <= popcount 8 b <= 8.
Proof.
  intros Hb.
  assert (T : byte_steps_ok b = true).
  { revert b Hb. apply byte_cases. vm_compute. reflexivity. }
  unfold byte_steps_ok in T. cbv zeta in T.
  repeat (apply andb_prop in T; destruct T as [T ?]).
  unfold is_byte, small_nibbles.
  assert (0 <= nibbles8 b mod 16) by (apply Z.mod_pos_bound; lia).
  assert (0 <= nibbles8 b / 16) by (apply Z.div_pos; lia).
  assert (0 <= popcount 8 b) by (unfold popcount; lia).
  lia.
Qed.

Section SwarSteps.
Variable l : list Z.
Hypothesis Hl : length l = 8%nat.
Hypothesis Hf : Forall is_byte l.

Lemma swar_step_pairs :
  U64.sub (from_bytes l) (Z.land (Z.shiftr (from_bytes l) 1) 0x5555555555555555)
  = from_bytes (map pairs8 l).
Proof.
  change 0x5555555555555555 with (from_bytes (repeat 0x55 8)). rewrite <- Hl.
  rewrite (shr_mask_bytes 1 0x55) by (cbn; lia || exact Hf).
  unfold U64.sub. rewrite <- (map_id l) at 1.
  rewrite (from_bytes_sub (fun b => b) (fun b => Z.land (Z.shiftr b 1) 0x55)).
  apply u64_wrap_bytes; [now rewrite length_map|].
  eapply Forall_map_byte; [|exact Hf]. intros b Hb. now apply byte_steps.
Qed.

Lemma swar_step_nibbles :
  U64.add (Z.land (from_bytes l) 0x3333333333333333)
          (Z.land (Z.shiftr (from_bytes l) 2) 0x3333333333333333)
  = from_bytes (map nibbles8 l).
Proof.
  change 0x3333333333333333 with (from_bytes (repeat 0x33 8)). rewrite <- Hl.
  rewrite <- (Z.shiftr_0_r (from_bytes l)) at 1.
  rewrite (shr_mask_bytes 0 0x33), (shr_mask_bytes 2 0x33) by (cbn; lia || exact Hf).
  unfold U64.add. rewrite from_bytes_add.
  rewrite (map_ext _ nibbles8) by (intros b; unfold nibbles8; now rewrite Z.shiftr_0_r).
  apply u64_wrap_bytes; [now rewrite length_map|].
  eapply Forall_map_byte; [|exact Hf]. intros b Hb. now apply byte_steps.
Qed.

Lemma swar_step_fold :
  Forall small_nibbles l ->
  Z.land (U64.add (from_bytes l) (Z.shiftr (from_bytes l) 4)) 0xF0F0F0F0F0F0F0F
  = from_bytes (map fold8 l).
Proof.
  intros Hs.
  change 0xF0F0F0F0F0F0F0F with (from_bytes (repeat 0x0F 8)). rewrite <- Hl.
  rewrite <- fold_nibbles_bytes by exact Hs. f_equal.
  unfold U64.add, U64.wrap. apply Z.mod_small.
  assert (B : 0 <= from_bytes l <= 0x7777777777777777).
  { clear Hf. destruct l as [|c0 [|c1 [|c2 [|c3 [|c4 [|c5 [|c6 [|c7 [|]]]]]]]]];
      try discriminate Hl.
    repeat match goal with H : Forall _ (_ :: _) |- _ => inversion H; subst; clear H end.
    unfold small_nibbles in *. cbn [from_bytes].
    pose proof (Z.div_mod c0 16). pose proof (Z.div_mod c1 16).
    pose proof (Z.div_mod c2 16). pose proof (Z.div_mod c3 16).
    pose proof (Z.div_mod c4 16). pose proof (Z.div_mod c5 16).
    pose proof (Z.div_mod c6 16). pose proof (Z.div_mod c7 16). lia. }
  rewrite Z.shiftr_div_pow2 by lia. change (2 ^ 4) with 16.
  assert (0 <= from_bytes l / 16 <= from_bytes l).
  { split; [apply Z.div_pos; lia|]. apply Z.div_le_upper_bound; lia. }
  change (2 ^ 64) with 18446744073709551616. lia.
Qed.

Lemma swar_step_sum :
  Forall (fun c => 0 <= c <= 8) l ->
  Z.shiftr (U64.mul (from_bytes l) 0x101010101010101) 56 = sum_list l.
Proof.
  intros Hc. clear Hf.
  destruct l as [|c0 [|c1 [|c2 [|c3 [|c4 [|c5 [|c6 [|c7 [|]]]]]]]]];
    try discriminate Hl.
  repeat match goal with H : Forall _ (_ :: _) |- _ => inversion H; subst; clear H end.
  rewrite sum_bytes_top by assumption. cbn [sum_list]. lia.
Qed.
End SwarSteps.

Lemma swar_popcount_correct (v : Z) :
  0 <= v < 2 ^ 64 -> swar_popcount v = popcount 64 v.
Proof.
  intros Hv.
  destruct (to_bytes 8 v) as [l [Hl [Hf ->]]]; [exact Hv|].
  assert (F1 : Forall is_byte (map pairs8 l)).
  { eapply Forall_map_byte; [|exact Hf]. intros b Hb. now apply byte_steps. }
  assert (F2 : Forall is_byte (map nibbles8 (map pairs8 l))).
  { eapply Forall_map_byte; [|exact F1]. intros b Hb. now apply byte_steps. }
  assert (S2 : Forall small_nibbles (map nibbles8 (map pairs8 l))).
  { eapply Forall_map_byte; [|exact F1]. intros b Hb. now apply byte_steps. }
  assert (E : map fold8 (map nibbles8 (map pairs8 l)) = map (popcount 8) l).
  { rewrite !map_map. apply map_ext_in. intros b Hb. apply byte_steps.
    rewrite Forall_forall in Hf. now apply Hf. }
  unfold swar_popcount. cbv zeta.
  assert (L1 : length (map pairs8 l) = 8%nat) by now rewrite length_map.
  assert (L2 : length (map nibbles8 (map pairs8 l)) = 8%nat) by now rewrite length_map.
  rewrite (swar_step_pairs l Hl Hf).
  rewrite (swar_step_nibbles _ L1 F1).
  rewrite (swar_step_fold _ L2 S2).
  rewrite E.
  rewrite swar_step_sum.
  - replace 64%nat with (8 * length l)%nat by (now rewrite Hl).
    rewrite popcount_bytes by exact Hf.
    assert (B : 0 <= sum_list (map (popcount 8) l) <= 8 * Z.of_nat (length (map (popcount 8) l))).
    { apply sum_list_bounds. eapply Forall_map_byte; [|exact Hf].
      intros b Hb. now apply byte_steps. }
    rewrite length_map, Hl in B. unfold Int.wrap.
    rewrite Z.mod_small; lia.
  - now rewrite length_map.
  - eapply Forall_map_byte; [|exact Hf]. intros b Hb. now apply byte_steps.
Qed.

Lemma popcount_bounds (w : nat) (v : Z) : 0 <= popcount w v <= Z.of_nat w.
Proof.
  unfold popcount. split; [lia|].
  apply inj_le. pose proof (filter_length_le (fun i => Z.testbit v (Z.of_nat i)) (seq 0 w)) as H.
  now rewrite length_seq in H.
Qed.

Lemma core_is_popcount (popcnt : bool) (v : Z) :
  0 <= v < 2 ^ 64 -> GetHammingDistanceCore popcnt v = popcount 64 v.
Proof.
  intros Hv. unfold GetHammingDistanceCore, builtin_popcountll.
  destruct popcnt; [|now apply swar_popcount_correct].
  pose proof (popcount_bounds 64 v) as B. unfold Int.wrap.
  rewrite Z.mod_small; lia.
Qed.

Lemma u64_bits_inj (a b : Z) :
  0 <= b < 2 ^ 64 ->
  (forall i, 0 <= i < 64 -> Z.testbit a i = Z.testbit b i) ->
  U64.wrap a = b.
Proof.
  intros Hb H. unfold U64.wrap. apply Z.bits_inj'. intros i Hi.
  destruct (Z.lt_ge_cases i 64) as [L|G].
  - rewrite Z.mod_pow2_bits_low by lia. apply H. lia.
  - rewrite Z.mod_pow2_bits_high by lia. symmetry. apply (testbit_high b 64); lia.
Qed.

Lemma lxor_u64 (x y : Z) :
  0 <= x < 2 ^ 64 -> 0 <= y < 2 ^ 64 -> 0 <= Z.lxor x y < 2 ^ 64.
Proof.
  intros Hx Hy.
  assert (E : Z.lxor x y mod 2 ^ 64 = Z.lxor x y).
  { apply Z.bits_inj'. intros i Hi.
    destruct (Z.lt_ge_cases i 64) as [L|G].
    - now rewrite Z.mod_pow2_bits_low by lia.
    - rewrite Z.mod_pow2_bits_high by lia. rewrite Z.lxor_spec.
      now rewrite (testbit_high x 64), (testbit_high y 64) by lia. }
  rewrite <- E. apply Z.mod_pos_bound. lia.
Qed.

Lemma i64_wrap_bits (x i : Z) :
  0 <= i < 64 -> Z.testbit (I64.wrap x) i = Z.testbit x i.
Proof.
  intros Hi. rewrite <- (Z.mod_pow2_bits_low (I64.wrap x) 64) by lia.
  rewrite <- (Z.mod_pow2_bits_low x 64 i) by lia. f_equal.
  unfold I64.wrap. rewrite Zminus_mod_idemp_l. f_equal. lia.
Qed.

Lemma popcount_lxor (w : nat) (x y : Z) :
  popcount w (Z.lxor x y) = differing_bits w x y.
Proof.
  unfold popcount, differing_bits. do 2 f_equal.
  apply filter_ext. intros i. apply Z.lxor_spec.
Qed.

(** C3.  On every 64-bit word the SWAR path returns the population count,
    so the two paths of [GetHammingDistanceCore] agree; the two-argument
    overloads, unsigned and signed, return the number of differing bits,
    which lies in [0, 64]. *)
Theorem hamming_distance_correct (popcnt : bool) (x y : Z) :
  0 <= x < 2 ^ 64 -> 0 <= y < 2 ^ 64 ->
  swar_popcount x = popcount 64 x
  /\ GetHammingDistanceCore true x = GetHammingDistanceCore false x
  /\ GetHammingDistance_u64_u64 popcnt x y = differing_bits 64 x y
  /\ GetHammingDistance_i64_i64 popcnt (I64.wrap x) (I64.wrap y) = differing_bits 64 x y
  /\ 0 <= differing_bits 64 x y <= 64.
Proof.
  intros Hx Hy. pose proof (lxor_u64 x y Hx Hy) as Hxy.
  split; [now apply swar_popcount_correct|].
  split; [now rewrite !core_is_popcount|].
  split; [|split].
  - unfold GetHammingDistance_u64_u64, GetHammingDistance_u64.
    rewrite core_is_popcount by exact Hxy. apply popcount_lxor.
  - unfold GetHammingDistance_i64_i64, GetHammingDistance_u64.
    rewrite (u64_bits_inj _ (Z.lxor x y) Hxy).
    + rewrite core_is_popcount by exact Hxy. apply popcount_lxor.
    + intros i Hi. rewrite !Z.lxor_spec. now rewrite !i64_wrap_bits.
  - rewrite <- popcount_lxor. apply (popcount_bounds 64).
Qed.

Lemma hamming_distance_correct_witness :
  GetHammingDistance_u64_u64 false 0xFFFFFFFFFFFFFFFF 0 = differing_bits 64 0xFFFFFFFFFFFFFFFF 0.
Proof.
  apply (hamming_distance_correct false 0xFFFFFFFFFFFFFFFF 0); lia.
Defined.

(** The one-argument overloads count the set bits of the bit pattern. *)
Lemma hamming_popcount (popcnt : bool) (v : Z) :
  0 <= v < 2 ^ 64 ->
  GetHammingDistance_u64 popcnt v = popcount 64 v
  /\ GetHammingDistance_i64 popcnt (I64.wrap v) = popcount 64 v.
Proof.
  intros Hv. split; [now apply core_is_popcount|].
  unfold GetHammingDistance_i64. rewrite (u64_bits_inj _ v Hv).
  - now apply core_is_popcount.
  - intros i Hi. now apply i64_wrap_bits.
Qed.

(** ** The loops of the two cores in closed form *)

Lemma float_core_closed (x y : list F32.float) :
  length x = length y -> fits x ->
  GetCrossCorrelationCore_float x y = Some (F32.sqrt (max_over_offsets x y)).
Proof.
  intros Hl Hn. unfold fits in Hn. unfold GetCrossCorrelationCore_float, for_range.
  rewrite Z.sub_0_r, Nat2Z.id. change 0 with (Z.of_nat 0).
  rewrite (for_loop_pure (fun d m => F32.max m (offset_value x y d))); [reflexivity|].
  intros d m Hd. rewrite int_wrap_small by (unfold Int.min_value; lia).
  rewrite offset_kernel_closed by (assumption || lia). reflexivity.
Qed.

Lemma firstn_skipn_cons {A : Type} (l : list A) (k c : nat) (dflt : A) :
  (k < length l)%nat ->
  firstn (S c) (skipn k l) = nth k l dflt :: firstn c (skipn (S k) l).
Proof.
  revert k. induction l as [|h t IH]; intros k Hk; [cbn in Hk; lia|].
  destruct k as [|k]; [reflexivity|].
  cbn [skipn nth]. apply IH. cbn in Hk. lia.
Qed.

Lemma fold_seq_nth {A S : Type} (g : S -> A -> S) (l : list A) (dflt : A) (c : nat) :
  forall k s0, (k + c <= length l)%nat ->
    fold_left (fun s j => g s (nth j l dflt)) (seq k c) s0 =
    fold_left g (firstn c (skipn k l)) s0.
Proof.
  induction c as [|c IH]; intros k s0 Hk; [reflexivity|].
  rewrite (firstn_skipn_cons l k c dflt) by lia.
  cbn [seq fold_left]. apply IH. lia.
Qed.

Lemma fold_pair {I S T : Type} (f : S -> I -> S) (g : T -> I -> T) (l : list I) :
  forall s t,
    fold_left (fun p i => (f (fst p) i, g (snd p) i)) l (s, t) =
    (fold_left f l s, fold_left g l t).
Proof.
  induction l as [|i l IH]; intros s t; [reflexivity|]. cbn [fold_left fst snd]. apply IH.
Qed.

Lemma sum_loop_closed (x y : list byte) (n : nat) :
  (n <= length x)%nat -> (n <= length y)%nat ->
  for_range 0 (Z.of_nat n) (sum_body x y) (0, 0) =
  Some (sum_bytes (firstn n x), sum_bytes (firstn n y)).
Proof.
  intros Hx Hy. unfold for_range. rewrite Z.sub_0_r, Nat2Z.id.
  change 0 with (Z.of_nat 0) at 1.
  rewrite (for_loop_pure
             (fun j s => (Int.add (fst s) (byte_val (nth j x x00)),
                          Int.add (snd s) (byte_val (nth j y x00))))).
  - rewrite (fold_pair (fun s j => Int.add s (byte_val (nth j x x00)))
                       (fun s j => Int.add s (byte_val (nth j y x00)))).
    unfold sum_bytes.
    rewrite (fold_seq_nth (fun s b => Int.add s (byte_val b)) x x00) by lia.
    rewrite (fold_seq_nth (fun s b => Int.add s (byte_val b)) y x00) by lia.
    reflexivity.
  - intros j s Hj. unfold sum_body.
    rewrite (get_of_nat x j x00), (get_of_nat y j x00) by lia. reflexivity.
Qed.

Lemma set_nat_app {A : Type} (pre : list A) (old v : A) (post : list A) :
  Vec.set_nat (pre ++ old :: post) (length pre) v = Some (pre ++ v :: post).
Proof.
  induction pre as [|h t IH]; [reflexivity|].
  cbn [app length Vec.set_nat]. now rewrite IH.
Qed.

Lemma set_app {A : Type} (pre : list A) (old v : A) (post : list A) :
  Vec.set (pre ++ old :: post) (Z.of_nat (length pre)) v = Some (pre ++ v :: post).
Proof.
  unfold Vec.set. destruct (Z.ltb_spec (Z.of_nat (length pre)) 0) as [N|_]; [lia|].
  rewrite Nat2Z.id. apply set_nat_app.
Qed.

Lemma center_loop_closed (x y : list byte) (mX mY : F32.float) (c : nat) :
  forall k px py,
    length px = k -> length py = k ->
    (k + c <= length x)%nat -> (k + c <= length y)%nat ->
    for_loop c (Z.of_nat k) (center_body x y mX mY)
      (px ++ repeat F32.zero c, py ++ repeat F32.zero c) =
    Some (px ++ centered mX (firstn c (skipn k x)),
          py ++ centered mY (firstn c (skipn k y))).
Proof.
  induction c as [|c IH]; intros k px py Hpx Hpy Hx Hy; [reflexivity|].
  cbn [for_loop repeat]. unfold center_body at 1. cbn [fst snd].
  rewrite (get_of_nat x k x00), (get_of_nat y k x00) by lia. cbn [bind].
  rewrite <- Hpx at 1. rewrite set_app. cbn [bind].
  rewrite <- Hpy at 1. rewrite set_app. cbn [bind].
  rewrite (firstn_skipn_cons x k c x00), (firstn_skipn_cons y k c x00) by lia.
  unfold centered. cbn [map]. fold (centered mX). fold (centered mY).
  replace (Z.of_nat k + 1) with (Z.of_nat (S k)) by lia.
  specialize (IH (S k)
                (px ++ [F32.sub (F32.of_int (byte_val (nth k x x00))) mX])
                (py ++ [F32.sub (F32.of_int (byte_val (nth k y x00))) mY])).
  rewrite <- !app_assoc in IH. cbn [app] in IH. rewrite IH.
  - reflexivity.
  - rewrite length_app. cbn. lia.
  - rewrite length_app. cbn. lia.
  - lia.
  - lia.
Qed.

Lemma centered_length (m : F32.float) (l : list byte) :
  length (centered m l) = length l.
Proof. apply length_map. Qed.

(** The public entry point in closed form. *)
Lemma cross_correlation_closed (a b : list byte) :
  fits a -> fits b ->
  GetCrossCorrelation a b =
  Some (F32.sqrt
          (max_over_offsets
             (mean_subtracted (firstn (Nat.min (length a) (length b)) a))
             (mean_subtracted (firstn (Nat.min (length a) (length b)) b)))).
Proof.
  intros Ha Hb. unfold fits in Ha, Hb.
  set (n := Nat.min (length a) (length b)).
  assert (Hna : (n <= length a)%nat) by (subst n; lia).
  assert (Hnb : (n <= length b)%nat) by (subst n; lia).
  unfold GetCrossCorrelation, GetCrossCorrelationCore. fold n.
  rewrite !int_of_size_small by lia.
  destruct (Z.leb_spec (Z.of_nat n) (Z.of_nat (length a))) as [_|N]; [cbn [assert bind]|lia].
  destruct (Z.leb_spec (Z.of_nat n) (Z.of_nat (length b))) as [_|N]; [cbn [assert bind]|lia].
  rewrite sum_loop_closed by assumption. cbn [bind fst snd].
  unfold Vec.make. destruct (Z.ltb_spec (Z.of_nat n) 0) as [N|_]; [lia|]. cbn [bind].
  unfold for_range. rewrite Z.sub_0_r, Nat2Z.id.
  change 0 with (Z.of_nat 0) at 1.
  pose proof (center_loop_closed a b
                (F32.div (F32.of_int (sum_bytes (firstn n a))) (F32.of_int (Z.of_nat n)))
                (F32.div (F32.of_int (sum_bytes (firstn n b))) (F32.of_int (Z.of_nat n)))
                n 0 [] [] eq_refl eq_refl) as C.
  cbn [app skipn] in C. rewrite C by lia. clear C. cbn [bind fst snd].
  rewrite float_core_closed.
  - unfold mean_subtracted, mean_of. now rewrite !length_firstn, !Nat.min_l by lia.
  - now rewrite !centered_length, !length_firstn, !Nat.min_l by lia.
  - unfold fits. rewrite centered_length, length_firstn, Nat.min_l by lia. lia.
Qed.

(** ** Sums and maxima over offsets *)

Lemma sum_over_ext (n : nat) (f g : nat -> F32.float) :
  (forall i, (i < n)%nat -> f i = g i) -> sum_over n f = sum_over n g.
Proof.
  intros E. unfold sum_over.
  assert (G : forall l s, (forall i, In i l -> f i = g i) ->
              fold_left (fun s i => F32.add s (f i)) l s =
              fold_left (fun s i => F32.add s (g i)) l s).
  { induction l as [|i l IH]; intros s' H; [reflexivity|].
    cbn [fold_left]. rewrite H by (now left). apply IH. intros j Hj. apply H. now right. }
  apply G. intros i Hi. apply E. apply in_seq in Hi. lia.
Qed.

Lemma sum_over_zero (n : nat) : sum_over n (fun _ => F32.zero) = F32.zero.
Proof.
  unfold sum_over. generalize 0%nat. induction n as [|n IH]; intros k; [reflexivity|].
  cbn [seq fold_left]. change (F32.add F32.zero F32.zero) with F32.zero. apply IH.
Qed.

Lemma fold_left_invariant {S I : Type} (P : S -> Prop) (f : S -> I -> S) (l : list I) :
  forall s, (forall s i, In i l -> P s -> P (f s i)) -> P s -> P (fold_left f l s).
Proof.
  induction l as [|i l IH]; intros s H Hs; [exact Hs|].
  cbn [fold_left]. apply IH.
  - intros s' j Hj. apply H. now right.
  - apply H; [now left|exact Hs].
Qed.

Lemma max_over_offsets_zero (x y : list F32.float) :
  (forall d, (d < length x)%nat -> offset_value x y d = F32.zero) ->
  max_over_offsets x y = F32.zero.
Proof.
  intros H. unfold max_over_offsets.
  apply (fold_left_invariant (fun m => m = F32.zero)); [|reflexivity].
  intros m d Hd ->. apply in_seq in Hd. rewrite H by lia. reflexivity.
Qed.

Lemma ratio_spec_denx_zero (n dy : F32.float) : ratio_spec n F32.zero dy = F32.zero.
Proof.
  unfold ratio_spec. change (F32.eqb F32.zero F32.zero) with true.
  now rewrite orb_true_r.
Qed.

Lemma ratio_spec_deny_zero (n dx : F32.float) : ratio_spec n dx F32.zero = F32.zero.
Proof.
  unfold ratio_spec. change (F32.eqb F32.zero F32.zero) with true.
  now rewrite orb_true_r.
Qed.

Lemma x_at_repeat (e : F32.float) (n i : nat) : x_at (repeat e n) i = if (i <? n)%nat then e else F32.zero.
Proof.
  unfold x_at. destruct (Nat.ltb_spec i n) as [L|G].
  - apply nth_repeat_lt. exact L.
  - apply nth_overflow. now rewrite repeat_length.
Qed.

Lemma y_at_repeat (e : F32.float) (n d i : nat) :
  (0 < n)%nat -> y_at (repeat e n) n d i = e.
Proof.
  intros Hn. unfold y_at. apply nth_repeat_lt. apply Nat.mod_upper_bound. lia.
Qed.

(** A vector of zeros on either side makes every offset score 0. *)
Lemma zero_x_scores_zero (n : nat) (y : list F32.float) :
  max_over_offsets (repeat F32.zero n) y = F32.zero.
Proof.
  apply max_over_offsets_zero. intros d Hd. unfold offset_value.
  assert (E : denx_spec (repeat F32.zero n) = F32.zero).
  { unfold denx_spec. rewrite (sum_over_ext _ _ (fun _ => F32.zero)); [apply sum_over_zero|].
    intros i Hi. rewrite x_at_repeat. now destruct (i <? n)%nat. }
  rewrite E. apply ratio_spec_denx_zero.
Qed.

Lemma zero_y_scores_zero (x : list F32.float) :
  max_over_offsets x (repeat F32.zero (length x)) = F32.zero.
Proof.
  apply max_over_offsets_zero. intros d Hd. unfold offset_value.
  assert (E : deny_spec x (repeat F32.zero (length x)) d = F32.zero).
  { unfold deny_spec. rewrite (sum_over_ext _ _ (fun _ => F32.zero)); [apply sum_over_zero|].
    intros i Hi. now rewrite y_at_repeat by lia. }
  rewrite E. apply ratio_spec_deny_zero.
Qed.

(** ** C6: empty common prefix *)

(** C6.  When the shorter of the two inputs is empty (both lengths being
    [int]s), [GetCrossCorrelation] returns 0. *)
Theorem empty_prefix_scores_zero (a b : list byte) :
  fits a -> fits b -> common a b = 0%nat ->
  GetCrossCorrelation a b = Some F32.zero.
Proof.
  intros Ha Hb Hn. rewrite cross_correlation_closed by assumption.
  unfold common in Hn. rewrite Hn. reflexivity.
Qed.

Lemma empty_prefix_scores_zero_witness :
  GetCrossCorrelation [] (bytes [1; 2; 3]%N) = Some F32.zero.
Proof.
  apply (empty_prefix_scores_zero [] (bytes [1; 2; 3]%N)).
  - unfold fits, Int.max_value. cbn. lia.
  - unfold fits, Int.max_value. cbn. lia.
  - reflexivity.
Defined.

(** ** Facts about single-precision arithmetic *)

Lemma fexp_normal (e : Z) : -149 <= e -> fexp 24 128 (24 + e) = e.
Proof. intros H. unfold fexp, emin. lia. Qed.

Lemma round_exact24 (s : bool) (m : positive) (e : Z) :
  normal24 m -> -149 <= e <= 104 ->
  binary_round_aux 24 128 s (Zpos m) e loc_Exact = S754_finite s m e.
Proof.
  intros Hm He. unfold binary_round_aux, shr_fexp, Zdigits2.
  rewrite Hm. rewrite fexp_normal by lia. rewrite Z.sub_diag.
  cbn [shr shr_record_of_loc shr_m loc_of_shr_record round_nearest_even Zdigits2].
  rewrite Hm, fexp_normal by lia. rewrite Z.sub_diag. cbn [shr shr_record_of_loc shr_m].
  destruct (Z.leb_spec e (128 - 24)); [reflexivity|lia].
Qed.

Lemma round_exact25 (s : bool) (m : positive) (e : Z) :
  normal24 m -> -150 <= e <= 103 ->
  binary_round_aux 24 128 s (Zpos m~0) e loc_Exact = S754_finite s m (e + 1).
Proof.
  intros Hm He. unfold binary_round_aux, shr_fexp, Zdigits2.
  cbn [digits2_pos]. rewrite Hm.
  replace (fexp 24 128 (Z.pos (Pos.succ 24) + e) - e) with 1
    by (unfold fexp, emin; lia).
  cbn [shr shr_record_of_loc shr_m loc_of_shr_record round_nearest_even Zdigits2
       iter_pos shr_1 orb].
  rewrite Hm. replace (fexp 24 128 (24 + (e + 1)) - (e + 1)) with 0
    by (unfold fexp, emin; lia).
  cbn [shr shr_record_of_loc shr_m].
  destruct (Z.leb_spec (e + 1) (128 - 24)); [reflexivity|lia].
Qed.

Lemma digits2_bounds (p : positive) :
  2 ^ (Zpos (digits2_pos p) - 1) <= Zpos p < 2 ^ Zpos (digits2_pos p).
Proof.
  induction p as [p IH|p IH|]; cbn [digits2_pos].
  - rewrite Pos2Z.inj_succ. replace (Z.succ (Zpos (digits2_pos p)) - 1) with (Z.succ (Zpos (digits2_pos p) - 1)) by lia.
    rewrite !Z.pow_succ_r by lia. lia.
  - rewrite Pos2Z.inj_succ. replace (Z.succ (Zpos (digits2_pos p)) - 1) with (Z.succ (Zpos (digits2_pos p) - 1)) by lia.
    rewrite !Z.pow_succ_r by lia. lia.
  - cbn. lia.
Qed.

Lemma iter_xO_digits (p k : positive) :
  digits2_pos (Pos.iter xO p k) = (digits2_pos p + k)%positive.
Proof.
  induction k as [|k IH] using Pos.peano_ind.
  - cbn. now rewrite Pos.add_1_r.
  - rewrite Pos.iter_succ. cbn [digits2_pos]. rewrite IH. lia.
Qed.

Lemma iter_xO_value (p k : positive) :
  Zpos (Pos.iter xO p k) = Zpos p * 2 ^ Zpos k.
Proof.
  induction k as [|k IH] using Pos.peano_ind.
  - cbn. lia.
  - rewrite Pos.iter_succ, Pos2Z.inj_xO, IH, Pos2Z.inj_succ, Z.pow_succ_r by lia. lia.
Qed.

(** An integer below [2^24] converts exactly: its float is the integer
    scaled to a 24-bit mantissa. *)
Lemma of_int_exact (z : Z) :
  0 < z < 2 ^ 24 ->
  exists m k, 0 <= k <= 23 /\ Zpos m = z * 2 ^ k /\ normal24 m
              /\ F32.of_int z = S754_finite false m (- k).
Proof.
  intros Hz. destruct z as [|p|p]; try lia.
  pose proof (digits2_bounds p) as B.
  assert (Hd : Zpos (digits2_pos p) <= 24).
  { destruct (Z.le_gt_cases (Zpos (digits2_pos p)) 24) as [L|G]; [exact L|].
    assert (2 ^ 24 <= 2 ^ (Zpos (digits2_pos p) - 1)) by (apply Z.pow_le_mono_r; lia).
    lia. }
  unfold F32.of_int, binary_normalize, binary_round, F32.prec, F32.emax.
  replace (fexp 24 128 (Zpos (digits2_pos p) + 0)) with (Zpos (digits2_pos p) - 24)
    by (unfold fexp, emin; lia).
  unfold shl_align. rewrite Z.sub_0_r.
  destruct (Zpos (digits2_pos p) - 24) as [|q|q] eqn:E; try lia.
  - exists p, 0. rewrite Z.mul_1_r. repeat split; try lia.
    + unfold normal24. lia.
    + apply round_exact24; [unfold normal24|]; lia.
  - exists (Pos.iter xO p q), (Zpos q).
    assert (N : normal24 (Pos.iter xO p q)).
    { unfold normal24. rewrite iter_xO_digits. lia. }
    repeat split; try lia.
    + apply iter_xO_value.
    + exact N.
    + change (- Zpos q) with (Zneg q). apply round_exact24; [exact N|lia].
Qed.

Lemma div_eucl_exact (a b q : Z) : 0 < b -> a = q * b -> Z.div_eucl a b = (q, 0).
Proof.
  intros Hb ->.
  assert (E : Z.div_eucl (q * b) b = (q * b / b, (q * b) mod b)).
  { unfold Z.div, Z.modulo. now destruct (Z.div_eucl (q * b) b). }
  rewrite E, Z.div_mul, Z.mod_mul by lia. reflexivity.
Qed.

Lemma new_location_exact (n : Z) : new_location n 0 = loc_Exact.
Proof.
  unfold new_location, new_location_even, new_location_odd.
  now destruct (Z.even n).
Qed.

(** Division of two normal floats whose quotient of mantissas is exact. *)
Lemma div_exact (s1 s2 : bool) (m1 m2 Q : positive) (e1 e2 : Z) :
  normal24 m1 -> normal24 m2 ->
  Zpos m1 * 2 ^ 24 = Zpos Q * Zpos m2 ->
  -125 <= e1 - e2 ->
  F32.div (S754_finite s1 m1 e1) (S754_finite s2 m2 e2) =
  binary_round_aux 24 128 (xorb s1 s2) (Zpos Q) (e1 - e2 - 24) loc_Exact.
Proof.
  intros H1 H2 HQ He.
  unfold F32.div, SFdiv, SFdiv_core_binary, F32.prec, F32.emax, Zdigits2.
  rewrite H1, H2.
  replace (Z.min (fexp 24 128 (24 + e1 - (24 + e2))) (e1 - e2)) with (e1 - e2 - 24)
    by (unfold fexp, emin; lia).
  replace (e1 - e2 - (e1 - e2 - 24)) with 24 by lia.
  cbv iota. rewrite Z.shiftl_mul_pow2 by lia.
  rewrite (div_eucl_exact _ _ (Zpos Q)) by (lia || exact HQ).
  now rewrite new_location_exact.
Qed.

Lemma pow2_ge1 (k : Z) : 0 <= k -> 1 <= 2 ^ k.
Proof. intros H. pose proof (Z.pow_pos_nonneg 2 k). lia. Qed.

Lemma normal24_bounds (m : positive) : normal24 m -> 2 ^ 23 <= Zpos m < 2 ^ 24.
Proof.
  intros H. pose proof (digits2_bounds m) as B. unfold normal24 in H.
  rewrite H in B. exact B.
Qed.

(** The single-precision mean of [n] copies of [c] is [c] itself as long as
    the integer sum [n * c] is below [2^24]. *)
Lemma mean_exact (n c : Z) :
  0 < n < 2 ^ 24 -> 0 <= c -> n * c < 2 ^ 24 ->
  F32.div (F32.of_int (n * c)) (F32.of_int n) = F32.of_int c.
Proof.
  intros Hn Hc Hnc.
  destruct (of_int_exact n Hn) as [m2 [k2 [Hk2 [V2 [N2 E2]]]]].
  rewrite E2.
  destruct (Z.eq_dec c 0) as [->|Hc0].
  { rewrite Z.mul_0_r. reflexivity. }
  assert (Hc' : 0 < c < 2 ^ 24) by nia.
  assert (Hp : 0 < n * c < 2 ^ 24) by nia.
  destruct (of_int_exact c Hc') as [m3 [k3 [Hk3 [V3 [N3 E3]]]]].
  destruct (of_int_exact (n * c) Hp) as [m1 [k1 [Hk1 [V1 [N1 E1]]]]].
  rewrite E1, E3.
  pose proof (normal24_bounds m1 N1) as B1.
  pose proof (normal24_bounds m2 N2) as B2.
  pose proof (normal24_bounds m3 N3) as B3.
  assert (V23 : Zpos m2 * Zpos m3 = n * c * 2 ^ (k2 + k3)).
  { rewrite V2, V3, Z.pow_add_r by lia. ring. }
  assert (B23 : 2 ^ 46 <= Zpos m2 * Zpos m3 < 2 ^ 48).
  { change (2 ^ 46) with (2 ^ 23 * 2 ^ 23). change (2 ^ 48) with (2 ^ 24 * 2 ^ 24). nia. }
  assert (T : k2 + k3 - k1 = 24 \/ k2 + k3 - k1 = 23).
  { destruct (Z.le_gt_cases 25 (k2 + k3 - k1)) as [G|L].
    - exfalso.
      assert (P : 2 ^ (k2 + k3) = 2 ^ k1 * 2 ^ 25 * 2 ^ (k2 + k3 - k1 - 25)).
      { rewrite <- !Z.pow_add_r by lia. f_equal. lia. }
      assert (1 <= 2 ^ (k2 + k3 - k1 - 25)) by (apply pow2_ge1; lia).
      rewrite P in V23. change (2 ^ 48) with (2 ^ 23 * 2 ^ 25) in B23. nia.
    - destruct (Z.le_gt_cases (k2 + k3 - k1) 22) as [L'|G']; [exfalso|lia].
      destruct (Z.le_gt_cases k1 (k2 + k3)) as [A|A].
      + assert (P : 2 ^ 22 = 2 ^ (k2 + k3 - k1) * 2 ^ (22 - (k2 + k3 - k1))).
        { rewrite <- Z.pow_add_r by lia. f_equal. lia. }
        assert (P' : 2 ^ (k2 + k3) = 2 ^ k1 * 2 ^ (k2 + k3 - k1)).
        { rewrite <- Z.pow_add_r by lia. f_equal. lia. }
        assert (1 <= 2 ^ (22 - (k2 + k3 - k1))) by (apply pow2_ge1; lia).
        assert (0 < 2 ^ (k2 + k3 - k1)) by (apply Z.pow_pos_nonneg; lia).
        rewrite P' in V23. change (2 ^ 46) with (2 ^ 24 * 2 ^ 22) in B23.
        rewrite P in B23. nia.
      + assert (P' : 2 ^ k1 = 2 ^ (k2 + k3) * 2 ^ (k1 - (k2 + k3))).
        { rewrite <- Z.pow_add_r by lia. f_equal. lia. }
        assert (1 <= 2 ^ (k1 - (k2 + k3))) by (apply pow2_ge1; lia).
        rewrite P' in V1. change (2 ^ 46) with (2 ^ 24 * 2 ^ 22) in B23. nia. }
  destruct T as [T|T].
  - assert (Q : Zpos m1 * 2 ^ 24 = Zpos m3 * Zpos m2).
    { rewrite (Z.mul_comm (Zpos m3)), V23, V1.
      replace (k2 + k3) with (k1 + 24) by lia. rewrite Z.pow_add_r by lia. ring. }
    rewrite (div_exact false false m1 m2 m3 _ _ N1 N2 Q) by lia.
    cbn [xorb]. rewrite round_exact24 by (assumption || lia). f_equal. lia.
  - assert (Q : Zpos m1 * 2 ^ 24 = Zpos m3~0 * Zpos m2).
    { rewrite (Pos2Z.inj_xO m3).
      replace (2 * Zpos m3 * Zpos m2) with (2 * (Zpos m2 * Zpos m3)) by ring.
      rewrite V23, V1. replace (k2 + k3) with (k1 + 23) by lia.
      rewrite Z.pow_add_r by lia. change (2 ^ 24) with (2 * 2 ^ 23). ring. }
    rewrite (div_exact false false m1 m2 (m3~0) _ _ N1 N2 Q) by lia.
    cbn [xorb]. rewrite round_exact25 by (assumption || lia). f_equal. lia.
Qed.

Lemma sub_self (x : F32.float) : F32.is_finite x = true -> F32.sub x x = F32.zero.
Proof.
  destruct x as [s|s| |s m e]; try discriminate; intros _.
  - now destruct s.
  - unfold F32.sub, SFsub. rewrite Z.sub_diag. reflexivity.
Qed.

Lemma of_int_finite (z : Z) : 0 <= z < 2 ^ 24 -> F32.is_finite (F32.of_int z) = true.
Proof.
  intros H. destruct (Z.eq_dec z 0) as [->|N]; [reflexivity|].
  destruct (of_int_exact z) as [m [k [_ [_ [_ E]]]]]; [lia|]. now rewrite E.
Qed.


Lemma mul_comm (x y : F32.float) : F32.mul x y = F32.mul y x.
Proof.
  unfold F32.mul.
  destruct x as [sx|sx| |sx mx ex], y as [sy|sy| |sy my ey]; cbn [SFmul];
    rewrite ?(xorb_comm sx sy); try reflexivity.
  now rewrite Pos.mul_comm, Z.add_comm.
Qed.

(** Rounding a non-negative mantissa with a positive sign bit. *)
Lemma iter_pos_invariant {A : Type} (P : A -> Prop) (f : A -> A) :
  (forall a, P a -> P (f a)) -> forall p a, P a -> P (iter_pos f p a).
Proof.
  intros Hf. induction p as [p IH|p IH|]; intros a Ha; cbn [iter_pos]; auto.
Qed.

Lemma shr_1_nonneg (mrs : shr_record) : 0 <= shr_m mrs -> 0 <= shr_m (shr_1 mrs).
Proof.
  destruct mrs as [m r s]. cbn [shr_m]. intros H.
  destruct m as [|[p|p|]|p]; cbn; lia.
Qed.

Lemma shr_nonneg (mrs : shr_record) (e n : Z) :
  0 <= shr_m mrs -> 0 <= shr_m (fst (shr mrs e n)).
Proof.
  intros H. unfold shr. destruct n as [|p|p]; cbn [fst]; try exact H.
  apply (iter_pos_invariant (fun r => 0 <= shr_m r)); [apply shr_1_nonneg|exact H].
Qed.

Lemma shr_record_of_loc_m (m : Z) (l : location) : shr_m (shr_record_of_loc m l) = m.
Proof. destruct l as [|[| |]]; reflexivity. Qed.

Lemma round_nearest_even_nonneg (m : Z) (l : location) :
  0 <= m -> 0 <= round_nearest_even m l.
Proof.
  intros H. destruct l as [|[| |]]; cbn [round_nearest_even]; try lia.
  destruct (Z.even m); lia.
Qed.

Lemma round_aux_nonneg (m e : Z) (l : location) :
  0 <= m -> nonneg (binary_round_aux 24 128 false m e l).
Proof.
  intros Hm. unfold binary_round_aux, shr_fexp.
  pose proof (shr_nonneg (shr_record_of_loc m l) e
                (fexp 24 128 (Zdigits2 m + e) - e)) as H1.
  rewrite shr_record_of_loc_m in H1. specialize (H1 Hm).
  destruct (shr (shr_record_of_loc m l) e _) as [mrs' e']. cbn [fst] in H1.
  pose proof (round_nearest_even_nonneg (shr_m mrs') (loc_of_shr_record mrs') H1) as H2.
  set (m2 := round_nearest_even (shr_m mrs') (loc_of_shr_record mrs')) in *.
  pose proof (shr_nonneg (shr_record_of_loc m2 loc_Exact) e'
                (fexp 24 128 (Zdigits2 m2 + e') - e')) as H3.
  rewrite shr_record_of_loc_m in H3. specialize (H3 H2).
  destruct (shr (shr_record_of_loc m2 loc_Exact) e' _) as [mrs'' e'']. cbn [fst] in H3.
  destruct (shr_m mrs'') as [|p|p]; [split; reflexivity| |lia].
  destruct (e'' <=? 128 - 24); split; reflexivity.
Qed.

Lemma sqrt_nonneg (x : F32.float) : nonneg x -> nonneg (F32.sqrt x).
Proof.
  intros [Hn Hs]. destruct x as [s|s| |s m e]; cbn in Hn, Hs; subst; try discriminate.
  - split; reflexivity.
  - split; reflexivity.
  - unfold F32.sqrt, SFsqrt, SFsqrt_core_binary.
    set (m' := match e - 2 * _ with Z.pos _ => _ | 0 => _ | Z.neg _ => _ end).
    assert (Hm' : 0 <= m').
    { subst m'. destruct (e - 2 * _) as [|p|p]; try lia.
      rewrite Z.shiftl_mul_pow2 by lia. pose proof (Z.pow_pos_nonneg 2 (Zpos p)). nia. }
    pose proof (Z.sqrtrem_spec m' Hm') as S.
    destruct (Z.sqrtrem m') as [q r].
    apply round_aux_nonneg. lia.
Qed.

Lemma max_nonneg (m v : F32.float) : nonneg m -> nonneg (F32.max m v).
Proof.
  intros [Hn Hs]. unfold F32.max, F32.ltb, SFltb.
  destruct (SFcompare m v) as [[| |]|] eqn:C; try (split; assumption).
  destruct m as [s|s| |s m e]; cbn in Hn, Hs; subst; try discriminate;
    destruct v as [s'|s'| |s' m' e']; cbn in C; try discriminate;
    destruct s'; try discriminate; split; reflexivity.
Qed.

(** ** C5: constant inputs *)

Lemma byte_val_range (c : byte) : 0 <= byte_val c <= 255.
Proof.
  unfold byte_val. pose proof (Byte.to_N_bounded c). lia.
Qed.

Lemma sum_bytes_repeat (c : byte) (n : nat) :
  Z.of_nat n * 255 <= Int.max_value ->
  sum_bytes (repeat c n) = Z.of_nat n * byte_val c.
Proof.
  intros Hn. unfold sum_bytes. pose proof (byte_val_range c) as Hc.
  assert (G : forall k s, 0 <= s -> s + Z.of_nat k * 255 <= Int.max_value ->
              fold_left (fun s b => Int.add s (byte_val b)) (repeat c k) s
              = s + Z.of_nat k * byte_val c).
  { induction k as [|k IH]; intros s Hs Hk; [cbn; lia|].
    cbn [repeat fold_left]. unfold Int.add at 2.
    rewrite int_wrap_small by (unfold Int.min_value; lia).
    rewrite IH by lia. lia. }
  rewrite G by lia. lia.
Qed.

Lemma centered_repeat (m : F32.float) (c : byte) (n : nat) :
  centered m (repeat c n) = repeat (F32.sub (F32.of_int (byte_val c)) m) n.
Proof. unfold centered. apply map_repeat. Qed.

(** A constant sequence short enough for its sum to be exact is
    mean-subtracted to zeros. *)
Lemma mean_subtracted_constant (l : list byte) :
  constant l -> Z.of_nat (length l) * 255 < 2 ^ 24 ->
  mean_subtracted l = repeat F32.zero (length l).
Proof.
  intros [c Hc] Hn. destruct l as [|b t]; [reflexivity|].
  set (n := length (b :: t)) in *.
  assert (Hpos : 0 < Z.of_nat n) by (subst n; cbn [length]; lia).
  pose proof (byte_val_range c) as Rc.
  unfold mean_subtracted, mean_of. fold n. rewrite Hc at 1 2.
  rewrite sum_bytes_repeat by (unfold Int.max_value; lia).
  rewrite mean_exact by nia.
  rewrite centered_repeat, sub_self; [reflexivity|].
  apply of_int_finite. lia.
Qed.

(** C5, for short prefixes.  If one of the two inputs is constant over the
    common prefix, and that prefix is short enough for 255 times its length
    to stay below [2^24], the score is 0. *)
Theorem constant_prefix_scores_zero (a b : list byte) :
  fits a -> fits b ->
  Z.of_nat (common a b) * 255 < 2 ^ 24 ->
  constant (firstn (common a b) a) \/ constant (firstn (common a b) b) ->
  GetCrossCorrelation a b = Some F32.zero.
Proof.
  intros Ha Hb Hn Hc. rewrite cross_correlation_closed by assumption.
  fold (common a b). set (n := common a b) in *.
  assert (La : length (firstn n a) = n) by (apply firstn_length_le; subst n; unfold common; lia).
  assert (Lb : length (firstn n b) = n) by (apply firstn_length_le; subst n; unfold common; lia).
  destruct Hc as [Hc|Hc].
  - rewrite (mean_subtracted_constant (firstn n a)) by (exact Hc || now rewrite La).
    now rewrite zero_x_scores_zero.
  - rewrite (mean_subtracted_constant (firstn n b)) by (exact Hc || now rewrite Lb).
    replace (length (firstn n b)) with (length (mean_subtracted (firstn n a))).
    + now rewrite zero_y_scores_zero.
    + unfold mean_subtracted. now rewrite centered_length, La, Lb.
Qed.


Lemma constant_prefix_scores_zero_witness :
  GetCrossCorrelation (bytes [5; 5; 5; 5]%N) (bytes [1; 2; 3; 4; 9]%N) = Some F32.zero.
Proof.
  apply (constant_prefix_scores_zero (bytes [5; 5; 5; 5]%N) (bytes [1; 2; 3; 4; 9]%N)).
  - unfold fits, Int.max_value. cbn. lia.
  - unfold fits, Int.max_value. cbn. lia.
  - cbn. lia.
  - left. exists (byte_of 5). reflexivity.
Defined.

Lemma max_over_offsets_const (x y : list F32.float) (v : F32.float) :
  (forall d, (d < length x)%nat -> offset_value x y d = v) ->
  max_over_offsets x y =
  fold_left (fun m (_ : nat) => F32.max m v) (seq 0 (length x)) F32.zero.
Proof.
  intros H. unfold max_over_offsets.
  assert (G : forall l m, (forall d, In d l -> offset_value x y d = v) ->
              fold_left (fun m d => F32.max m (offset_value x y d)) l m =
              fold_left (fun m (_ : nat) => F32.max m v) l m).
  { induction l as [|d l IH]; intros m Hl; [reflexivity|].
    cbn [fold_left]. rewrite Hl by (now left). apply IH. intros d' Hd'. apply Hl. now right. }
  apply G. intros d Hd. apply H. apply in_seq in Hd. lia.
Qed.

(** Two constant float vectors score the same at every offset. *)
Lemma offset_value_repeat (e e' : F32.float) (n d : nat) :
  (0 < n)%nat ->
  offset_value (repeat e n) (repeat e' n) d =
  ratio_spec (sum_over n (fun _ => F32.mul e e'))
             (sum_over n (fun _ => F32.mul e e))
             (sum_over n (fun _ => F32.mul e' e')).
Proof.
  intros Hn. unfold offset_value, num_spec, denx_spec, deny_spec.
  rewrite repeat_length. f_equal; apply sum_over_ext; intros i Hi;
    rewrite ?x_at_repeat, ?y_at_repeat by lia;
    destruct (Nat.ltb_spec i n); (reflexivity || lia).
Qed.

Lemma long_run_value : Z.of_nat long_run = 65795.
Proof. unfold long_run. now rewrite Z2Nat.id by lia. Qed.

Lemma long_constant_mean_subtracted :
  mean_subtracted long_constant = repeat (S754_finite false 8388608 (-39)) long_run.
Proof.
  unfold mean_subtracted, mean_of, long_constant.
  rewrite repeat_length, centered_repeat.
  rewrite sum_bytes_repeat by (rewrite long_run_value; unfold Int.max_value; lia).
  rewrite long_run_value.
  assert (E : F32.sub (F32.of_int (byte_val xff))
     (F32.div (F32.of_int (65795 * byte_val xff)) (F32.of_int 65795)) = S754_finite false 8388608 (-39)) by (vm_compute; reflexivity).
  rewrite E. reflexivity.
Qed.




Lemma long_constant_fits : fits long_constant.
Proof.
  unfold fits, long_constant. rewrite repeat_length, long_run_value.
  unfold Int.max_value. lia.
Qed.




Lemma long_constant_sum :
  sum_over long_run
    (fun _ => F32.mul (S754_finite false 8388608 (-39)) (S754_finite false 8388608 (-39)))
  = S754_finite false 8421760 (-39).
Proof. vm_compute. reflexivity. Qed.

Lemma long_constant_max :
  max_over_offsets (repeat (S754_finite false 8388608 (-39)) long_run)
                   (repeat (S754_finite false 8388608 (-39)) long_run) = F32.one.
Proof.
  etransitivity; [apply (max_over_offsets_const _ _ F32.one)|].
  - intros d Hd. etransitivity; [apply offset_value_repeat|].
    + rewrite repeat_length in Hd. lia.
    + etransitivity; [exact (f_equal (fun s => ratio_spec s s s) long_constant_sum)|].
      vm_compute. reflexivity.
  - etransitivity;
      [apply (f_equal (fun n => fold_left (fun m (_ : nat) => F32.max m F32.one)
                                  (seq 0 n) F32.zero)); apply repeat_length|].
    vm_compute. reflexivity.
Qed.

(** The 65795 bytes of value 255 correlate perfectly with themselves. *)
Lemma long_constant_score :
  GetCrossCorrelation long_constant long_constant = Some F32.one.
Proof.
  etransitivity;
    [exact (cross_correlation_closed _ _ long_constant_fits long_constant_fits)|].
  rewrite Nat.min_id, firstn_all, long_constant_mean_subtracted.
  exact (f_equal (fun m => Some (F32.sqrt m)) long_constant_max).
Qed.

(** C5, for all prefixes.  The statement fails: the long constant input
    scores 1 against itself. *)
Lemma constant_scores_zero_fails : ~ constant_scores_zero.
Proof.
  intros H.
  assert (C : constant (firstn (common long_constant long_constant) long_constant)).
  { unfold common. rewrite Nat.min_id, firstn_all. exists xff.
    unfold long_constant. now rewrite repeat_length. }
  pose proof (H long_constant long_constant long_constant_fits long_constant_fits
                (or_introl C)) as Z.
  assert (E : Some F32.one = Some F32.zero)
    by (etransitivity; [symmetry; exact long_constant_score|exact Z]).
  discriminate E.
Qed.

(** ** C9: exchanging the two inputs *)



Lemma fold_left_over_map {S I J : Type} (f : S -> J -> S) (g : I -> J) (l : list I) :
  forall a, fold_left f (map g l) a = fold_left (fun a i => f a (g i)) l a.
Proof. induction l as [|i l IH]; intros a; [reflexivity|]. cbn [map fold_left]. apply IH. Qed.


Lemma rotate_nth {A : Type} (k j : nat) (l : list A) (dflt : A) :
  (k < length l)%nat -> (j < length l)%nat ->
  nth j (rotate k l) dflt = nth ((j + k) mod length l) l dflt.
Proof.
  intros Hk Hj. unfold rotate.
  destruct (Nat.lt_ge_cases j (length l - k)) as [L|G].
  - rewrite app_nth1 by (rewrite length_skipn; lia).
    rewrite nth_skipn, Nat.mod_small by lia. f_equal. lia.
  - rewrite app_nth2 by (rewrite length_skipn; lia).
    rewrite length_skipn, nth_firstn.
    destruct (Nat.ltb_spec (j - (length l - k)) k) as [_|N]; [|lia].
    f_equal. apply (Nat.mod_unique _ _ 1); lia.
Qed.


Lemma mirror_back (n d j : nat) :
  (d < n)%nat -> (j < n)%nat -> (((j + mirror n d) mod n + d) mod n = j)%nat.
Proof.
  intros Hd Hj. unfold mirror.
  destruct (Nat.eq_dec d 0) as [->|Hd0].
  - rewrite Nat.sub_0_r, Nat.Div0.mod_same, !Nat.add_0_r.
    rewrite Nat.Div0.mod_mod. now apply Nat.mod_small.
  - rewrite (Nat.mod_small (n - d)) by lia.
    destruct (Nat.lt_ge_cases j d) as [L|G].
    + rewrite (Nat.mod_small (j + (n - d))) by lia.
      symmetry. apply (Nat.mod_unique _ _ 1); lia.
    + replace ((j + (n - d)) mod n)%nat with (j - d)%nat
        by (apply (Nat.mod_unique _ _ 1); lia).
      replace (j - d + d)%nat with j by lia. apply Nat.mod_small. lia.
Qed.






Lemma mean_subtracted_length (l : list byte) : length (mean_subtracted l) = length l.
Proof. apply centered_length. Qed.




(** ** C4: the range of the score *)

Lemma max_over_offsets_nonneg (x y : list F32.float) : nonneg (max_over_offsets x y).
Proof.
  unfold max_over_offsets. apply fold_left_invariant.
  - intros m d _ Hm. now apply max_nonneg.
  - split; reflexivity.
Qed.





(** ** C2: a sequence against itself *)

Lemma compare_cont_lt_trans (m1 m2 m3 : positive) :
  Pos.compare_cont Eq m1 m2 = Lt -> Pos.compare_cont Eq m2 m3 = Lt ->
  Pos.compare_cont Eq m1 m3 = Lt.
Proof.
  change (Pos.compare_cont Eq) with Pos.compare.
  rewrite !Pos.compare_lt_iff. lia.
Qed.

Lemma compare_cont_gt_trans (m1 m2 m3 : positive) :
  Pos.compare_cont Eq m1 m2 = Gt -> Pos.compare_cont Eq m2 m3 = Gt ->
  Pos.compare_cont Eq m1 m3 = Gt.
Proof.
  change (Pos.compare_cont Eq) with Pos.compare.
  rewrite !Pos.compare_gt_iff. lia.
Qed.

Lemma ltb_trans (x y z : F32.float) :
  F32.ltb x y = true -> F32.ltb y z = true -> F32.ltb x z = true.
Proof.
  unfold F32.ltb, SFltb.
  destruct x as [sx|sx| |sx mx ex], y as [sy|sy| |sy my ey], z as [sz|sz| |sz mz ez];
    cbn [SFcompare]; try discriminate;
    try (destruct sx; discriminate); try (destruct sy; discriminate);
    try (destruct sx, sy; discriminate); try (destruct sy, sz; discriminate);
    try (destruct sx, sz; (discriminate || reflexivity)).
  all: try (destruct sx, sy, sz; try discriminate; try reflexivity).
  all: destruct (Z.compare_spec ex ey), (Z.compare_spec ey ez), (Z.compare_spec ex ez);
    try discriminate; try reflexivity; try lia; subst.
  all: try (destruct (Pos.compare_cont Eq mx my) eqn:A; try discriminate;
            destruct (Pos.compare_cont Eq my mz) eqn:B; try discriminate;
            cbn [CompOpp];
            first [now rewrite (compare_cont_lt_trans _ _ _ A B)
                  |now rewrite (compare_cont_gt_trans _ _ _ A B)]).
Qed.







(** ** C7: divisions and their checks *)






















(** * Part IV: further properties of the code *)

(** ** The Hamming distance as a metric on 64-bit words *)

Lemma filter_length_zero {A : Type} (f : A -> bool) (l : list A) :
  length (filter f l) = 0%nat -> forall a, In a l -> f a = false.
Proof.
  induction l as [|h t IH]; cbn; [contradiction|].
  destruct (f h) eqn:E; cbn; [discriminate|].
  intros H a [<-|Ha]; [exact E|now apply IH].
Qed.

Lemma popcount_zero_bits (w : nat) (v : Z) :
  popcount w v = 0 -> forall i, (i < w)%nat -> Z.testbit v (Z.of_nat i) = false.
Proof.
  unfold popcount. intros H i Hi.
  apply (filter_length_zero (fun i => Z.testbit v (Z.of_nat i)) (seq 0 w)).
  - apply Nat2Z.inj. exact H.
  - apply in_seq. lia.
Qed.

Lemma popcount_zero (v : Z) : 0 <= v < 2 ^ 64 -> popcount 64 v = 0 -> v = 0.
Proof.
  intros Hv H. apply Z.bits_inj'. intros i Hi. rewrite Z.bits_0.
  destruct (Z.lt_ge_cases i 64) as [Lt|Ge].
  - rewrite <- (Z2Nat.id i) by lia. apply (popcount_zero_bits 64 v H). lia.
  - apply (testbit_high v 64); lia.
Qed.

Lemma filter_length_union {A : Type} (f g h : A -> bool) (l : list A) :
  (forall a, f a = true -> g a = true \/ h a = true) ->
  (length (filter f l) <= length (filter g l) + length (filter h l))%nat.
Proof.
  intros H. induction l as [|a t IH]; cbn; [lia|].
  specialize (H a).
  destruct (f a), (g a), (h a); cbn; try lia.
  all: destruct (H eq_refl); discriminate.
Qed.

Lemma differing_bits_triangle (w : nat) (x y z : Z) :
  differing_bits w x z <= differing_bits w x y + differing_bits w y z.
Proof.
  unfold differing_bits. rewrite <- Nat2Z.inj_add. apply inj_le.
  apply filter_length_union. intros i.
  destruct (Z.testbit x (Z.of_nat i)), (Z.testbit y (Z.of_nat i)),
    (Z.testbit z (Z.of_nat i)); cbn; auto.
Qed.

Lemma distance_is_differing_bits (popcnt : bool) (x y : Z) :
  0 <= x < 2 ^ 64 -> 0 <= y < 2 ^ 64 ->
  GetHammingDistance_u64_u64 popcnt x y = differing_bits 64 x y.
Proof.
  intros Hx Hy. unfold GetHammingDistance_u64_u64, GetHammingDistance_u64.
  rewrite core_is_popcount by now apply lxor_u64. apply popcount_lxor.
Qed.

(** X1.  The distance of two 64-bit words is 0 exactly when they are
    equal, on either path of [GetHammingDistanceCore]. *)
Theorem hamming_zero_iff_equal (popcnt : bool) (x y : Z) :
  0 <= x < 2 ^ 64 -> 0 <= y < 2 ^ 64 ->
  (GetHammingDistance_u64_u64 popcnt x y = 0 <-> x = y).
Proof.
  intros Hx Hy. unfold GetHammingDistance_u64_u64, GetHammingDistance_u64.
  pose proof (lxor_u64 x y Hx Hy) as Hxy.
  rewrite core_is_popcount by exact Hxy. split.
  - intros H. apply Z.lxor_eq. now apply popcount_zero.
  - intros ->. rewrite Z.lxor_nilpotent. reflexivity.
Qed.

Lemma hamming_zero_iff_equal_witness :
  GetHammingDistance_u64_u64 false 0xAAAA 0xAAAA = 0 <-> 0xAAAA = 0xAAAA.
Proof. apply (hamming_zero_iff_equal false 0xAAAA 0xAAAA); lia. Defined.

(** X2.  The distance is symmetric and obeys the triangle inequality. *)
Theorem hamming_triangle (popcnt : bool) (x y z : Z) :
  0 <= x < 2 ^ 64 -> 0 <= y < 2 ^ 64 -> 0 <= z < 2 ^ 64 ->
  GetHammingDistance_u64_u64 popcnt x y = GetHammingDistance_u64_u64 popcnt y x
  /\ GetHammingDistance_u64_u64 popcnt x z
     <= GetHammingDistance_u64_u64 popcnt x y + GetHammingDistance_u64_u64 popcnt y z.
Proof.
  intros Hx Hy Hz. split.
  - unfold GetHammingDistance_u64_u64. now rewrite Z.lxor_comm.
  - rewrite !distance_is_differing_bits by assumption. apply differing_bits_triangle.
Qed.

Lemma hamming_triangle_witness :
  GetHammingDistance_u64_u64 false 0xAAAA 0xAAAB = GetHammingDistance_u64_u64 false 0xAAAB 0xAAAA
  /\ GetHammingDistance_u64_u64 false 0xAAAA 0xFF
     <= GetHammingDistance_u64_u64 false 0xAAAA 0xAAAB
        + GetHammingDistance_u64_u64 false 0xAAAB 0xFF.
Proof. apply (hamming_triangle false 0xAAAA 0xAAAB 0xFF); lia. Defined.

(** ** Flipped bits *)

Lemma popcount_one_bit (k : nat) : (k < 64)%nat -> popcount 64 (Z.shiftl 1 (Z.of_nat k)) = 1.
Proof.
  intros Hk.
  assert (A : forallb (fun k => popcount 64 (Z.shiftl 1 (Z.of_nat k)) =? 1) (seq 0 64) = true)
    by (vm_compute; reflexivity).
  rewrite forallb_forall in A. apply Z.eqb_eq. apply A. apply in_seq. lia.
Qed.

Lemma shiftl_one_u64 (k : Z) : 0 <= k < 64 -> 0 <= Z.shiftl 1 k < 2 ^ 64.
Proof.
  intros Hk. rewrite Z.shiftl_1_l. split; [apply Z.pow_nonneg; lia|].
  apply Z.pow_lt_mono_r; lia.
Qed.

(** X3.  [x ^ (1ULL << k)] is at distance 1 from [x]: flipping one bit of
    a hash moves it by exactly one. *)
Theorem hamming_one_bit_flip (popcnt : bool) (x k : Z) :
  0 <= x < 2 ^ 64 -> 0 <= k < 64 ->
  GetHammingDistance_u64_u64 popcnt x (Z.lxor x (Z.shiftl 1 k)) = 1.
Proof.
  intros Hx Hk. unfold GetHammingDistance_u64_u64, GetHammingDistance_u64.
  rewrite <- Z.lxor_assoc, Z.lxor_nilpotent, Z.lxor_0_l.
  rewrite core_is_popcount by now apply shiftl_one_u64.
  rewrite <- (Z2Nat.id k) by lia. apply popcount_one_bit. lia.
Qed.

Lemma hamming_one_bit_flip_witness :
  GetHammingDistance_u64_u64 true 0xAAAA (Z.lxor 0xAAAA (Z.shiftl 1 63)) = 1.
Proof. apply (hamming_one_bit_flip true 0xAAAA 63); lia. Defined.

Lemma filter_length_complement {A : Type} (f g : A -> bool) (l : list A) :
  (forall a, In a l -> g a = negb (f a)) ->
  (length (filter f l) + length (filter g l) = length l)%nat.
Proof.
  induction l as [|a t IH]; cbn; [reflexivity|]. intros H.
  rewrite (H a) by now left. specialize (IH (fun b Hb => H b (or_intror Hb))).
  destruct (f a); cbn; lia.
Qed.

Lemma popcount_complement (w : nat) (v u : Z) :
  (forall i, (i < w)%nat -> Z.testbit u (Z.of_nat i) = negb (Z.testbit v (Z.of_nat i))) ->
  popcount w v + popcount w u = Z.of_nat w
  /\ differing_bits w v u = Z.of_nat w.
Proof.
  intros B. unfold popcount, differing_bits. split.
  - rewrite <- Nat2Z.inj_add. f_equal.
    rewrite filter_length_complement; [apply length_seq|].
    intros i Hi. apply in_seq in Hi. apply B. lia.
  - f_equal. rewrite <- (length_seq w 0) at 2. f_equal.
    rewrite (filter_ext_in _ (fun _ => true)).
    + clear. induction (seq 0 w) as [|a t IH]; cbn; [reflexivity|now rewrite IH].
    + intros i Hi. apply in_seq in Hi. rewrite B by lia.
      now destruct (Z.testbit v (Z.of_nat i)).
Qed.

(** X4.  The one-argument overload is the distance to 0; a word and its
    complement [~v] have 64 set bits between them and are at distance 64. *)
Theorem hamming_complement (popcnt : bool) (v : Z) :
  0 <= v < 2 ^ 64 ->
  GetHammingDistance_u64 popcnt v = GetHammingDistance_u64_u64 popcnt v 0
  /\ GetHammingDistance_u64 popcnt v + GetHammingDistance_u64 popcnt (U64.wrap (Z.lnot v)) = 64
  /\ GetHammingDistance_u64_u64 popcnt v (U64.wrap (Z.lnot v)) = 64.
Proof.
  intros Hv.
  assert (Hn : 0 <= U64.wrap (Z.lnot v) < 2 ^ 64) by (apply Z.mod_pos_bound; lia).
  assert (B : forall i, (i < 64)%nat ->
              Z.testbit (U64.wrap (Z.lnot v)) (Z.of_nat i) = negb (Z.testbit v (Z.of_nat i))).
  { intros i Hi. unfold U64.wrap. rewrite Z.mod_pow2_bits_low by lia.
    apply Z.lnot_spec. lia. }
  destruct (popcount_complement 64 v _ B) as [P D].
  split; [|split].
  - unfold GetHammingDistance_u64_u64. now rewrite Z.lxor_0_r.
  - unfold GetHammingDistance_u64. rewrite !core_is_popcount by assumption. exact P.
  - rewrite distance_is_differing_bits by assumption. exact D.
Qed.

Lemma hamming_complement_witness :
  GetHammingDistance_u64 false 0xAAAA + GetHammingDistance_u64 false (U64.wrap (Z.lnot 0xAAAA)) = 64.
Proof. apply (hamming_complement false 0xAAAA). lia. Defined.

(** ** The offset kernel at and beyond the ends of its range *)

Lemma for_range_empty {A : Type} (lo hi : Z) (body : Z -> A -> option A) (a : A) :
  hi <= lo -> for_range lo hi body a = Some a.
Proof.
  intros H. unfold for_range. replace (Z.to_nat (hi - lo)) with 0%nat by lia. reflexivity.
Qed.

Lemma for_range_first_fails {A : Type} (lo hi : Z) (body : Z -> A -> option A) (a : A) :
  lo < hi -> body lo a = None -> for_range lo hi body a = None.
Proof.
  intros H E. unfold for_range.
  destruct (Z.to_nat (hi - lo)) as [|k] eqn:K; [lia|].
  cbn [for_loop]. now rewrite E.
Qed.

(** The two passes written out, for sizes and offsets that are [int]s. *)
Lemma two_pass_passes {A : Type} (n d : Z) (body : Z -> Z -> A -> option A) (a : A) :
  two_pass n d body a =
  (a1 <- for_range 0 (Int.sub n d) (fun i a => body i (Int.add i (Int.sub d (Int.mul 0 n))) a) a ;;
   for_range (Int.sub n d) n (fun i a => body i (Int.add i (Int.sub d (Int.mul 1 n))) a) a1).
Proof.
  unfold two_pass. unfold for_range at 1. change (Z.to_nat (2 - 0)) with 2%nat.
  cbn [for_loop]. change (0 + 1) with 1.
  change (0 =? 0) with true. change (1 =? 0) with false. cbv iota.
  destruct (for_range 0 (Int.sub n d) _ a) as [a1|]; cbn [bind]; [|reflexivity].
  now destruct (for_range (Int.sub n d) n _ a1).
Qed.

Lemma two_pass_offset_zero {A : Type} (n : Z) (body : Z -> Z -> A -> option A) (a : A) :
  0 <= n <= Int.max_value ->
  two_pass n 0 body a = for_range 0 n (fun i a => body i (Int.add i 0) a) a.
Proof.
  intros Hn. rewrite two_pass_passes. unfold Int.sub, Int.mul.
  rewrite Z.sub_0_r, Z.mul_0_l.
  rewrite (int_wrap_small n) by (unfold Int.min_value; lia).
  change (Int.wrap 0) with 0. rewrite Z.sub_0_r. change (Int.wrap 0) with 0.
  destruct (for_range 0 n _ a) as [a1|]; cbn [bind]; [|reflexivity].
  apply for_range_empty. lia.
Qed.

Lemma two_pass_offset_size {A : Type} (n : Z) (body : Z -> Z -> A -> option A) (a : A) :
  0 <= n <= Int.max_value ->
  two_pass n n body a = for_range 0 n (fun i a => body i (Int.add i 0) a) a.
Proof.
  intros Hn. rewrite two_pass_passes. unfold Int.sub, Int.mul.
  rewrite Z.sub_diag, Z.mul_0_l, Z.mul_1_l. change (Int.wrap 0) with 0.
  rewrite (int_wrap_small n) by (unfold Int.min_value; lia).
  rewrite Z.sub_diag, Z.sub_0_r. change (Int.wrap 0) with 0.
  rewrite (int_wrap_small n) by (unfold Int.min_value; lia).
  rewrite for_range_empty by lia. reflexivity.
Qed.

(** X5.  With [offset == x.size()] the first pass is empty and the second
    reads [y] from its start: the kernel computes what it computes for
    offset 0, in the same order. *)
Theorem kernel_offset_size_is_offset_zero (x y : list F32.float) :
  fits x ->
  GetCrossCorrelationForOffset x y (Z.of_nat (length x)) = GetCrossCorrelationForOffset x y 0.
Proof.
  intros Hn. unfold fits in Hn.
  unfold GetCrossCorrelationForOffset, kernel_sums.
  rewrite int_of_size_small by exact Hn.
  rewrite two_pass_offset_size, two_pass_offset_zero by lia. reflexivity.
Qed.

Lemma kernel_offset_size_is_offset_zero_witness :
  GetCrossCorrelationForOffset sample_x sample_y 3 = GetCrossCorrelationForOffset sample_x sample_y 0.
Proof.
  apply (kernel_offset_size_is_offset_zero sample_x sample_y).
  unfold fits, Int.max_value. cbn. lia.
Defined.

(** X6.  An offset outside [0, x.size()] makes the kernel index outside a
    vector on its first iteration: a negative offset reads [y[offset]], an
    offset above the size reads [x[size - offset]].  (The offset is such
    that [size - offset] is an [int].) *)
Theorem kernel_offset_out_of_range (x y : list F32.float) (offset : Z) :
  x <> [] -> fits x ->
  Int.min_value <= offset <= Int.max_value ->
  Z.of_nat (length x) - offset <= Int.max_value ->
  offset < 0 \/ Z.of_nat (length x) < offset ->
  GetCrossCorrelationForOffset x y offset = None.
Proof.
  intros Hx Hn Ho Hs Hout. unfold fits in Hn.
  assert (Hp : 0 < Z.of_nat (length x)) by (destruct x; [congruence|cbn [length]; lia]).
  unfold GetCrossCorrelationForOffset, kernel_sums.
  rewrite int_of_size_small by exact Hn.
  rewrite two_pass_passes. unfold Int.sub, Int.mul. rewrite Z.mul_0_l, Z.mul_1_l.
  change (Int.wrap 0) with 0. rewrite Z.sub_0_r.
  rewrite (int_wrap_small offset) by exact Ho.
  rewrite (int_wrap_small (Z.of_nat (length x) - offset))
    by (unfold Int.min_value, Int.max_value in *; lia).
  destruct Hout as [Neg|Big].
  - rewrite for_range_first_fails; [reflexivity|lia|].
    unfold kernel_body. destruct (Vec.get x 0); [|reflexivity]. cbn [bind].
    unfold Int.add. rewrite Z.add_0_l, int_wrap_small by exact Ho.
    unfold Vec.get. destruct (Z.ltb_spec offset 0); [reflexivity|lia].
  - rewrite for_range_empty by lia. cbn [bind].
    rewrite for_range_first_fails; [reflexivity|lia|].
    unfold kernel_body, Vec.get.
    destruct (Z.ltb_spec (Z.of_nat (length x) - offset) 0); [reflexivity|lia].
Qed.

Lemma kernel_offset_out_of_range_witness :
  GetCrossCorrelationForOffset sample_x sample_y (-1) = None
  /\ GetCrossCorrelationForOffset sample_x sample_y 4 = None.
Proof.
  split.
  - apply (kernel_offset_out_of_range sample_x sample_y (-1));
      unfold fits, Int.min_value, Int.max_value; cbn; (discriminate || lia).
  - apply (kernel_offset_out_of_range sample_x sample_y 4);
      unfold fits, Int.min_value, Int.max_value; cbn; (discriminate || lia).
Defined.

(** ** Vectors of unequal length in the float core *)

Lemma get_firstn {A : Type} (v : list A) (n : nat) (i : Z) :
  i < Z.of_nat n -> Vec.get (firstn n v) i = Vec.get v i.
Proof.
  intros Hi. unfold Vec.get. destruct (i <? 0) eqn:N; [reflexivity|].
  apply Z.ltb_ge in N. rewrite nth_error_firstn.
  destruct (Nat.ltb_spec (Z.to_nat i) n); [reflexivity|lia].
Qed.

Lemma kernel_ignores_tail (x y : list F32.float) (d : Z) :
  fits x -> 0 <= d < Z.of_nat (length x) ->
  GetCrossCorrelationForOffset x (firstn (length x) y) d = GetCrossCorrelationForOffset x y d.
Proof.
  intros Hn Hd. unfold fits in Hn.
  unfold GetCrossCorrelationForOffset, kernel_sums.
  rewrite int_of_size_small by exact Hn.
  rewrite !two_pass_is_one_pass_mod by lia.
  unfold one_pass_mod, for_range. f_equal.
  apply for_loop_ext. intros j a Hj. unfold kernel_body.
  rewrite get_firstn; [reflexivity|].
  apply Z.mod_pos_bound. lia.
Qed.

(** X7.  The float core reads [y] only below [x.size()]: elements of [y]
    past that index do not influence the result. *)
Theorem float_core_ignores_tail (x y : list F32.float) :
  fits x ->
  GetCrossCorrelationCore_float x (firstn (length x) y) = GetCrossCorrelationCore_float x y.
Proof.
  intros Hn. unfold GetCrossCorrelationCore_float, for_range. f_equal.
  apply for_loop_ext. intros d m Hd. unfold fits in Hn.
  rewrite int_wrap_small by (unfold Int.min_value; lia).
  rewrite kernel_ignores_tail by (exact Hn || lia). reflexivity.
Qed.

Lemma float_core_ignores_tail_witness :
  GetCrossCorrelationCore_float sample_x (firstn (length sample_x) (sample_y ++ [F32.one]))
  = GetCrossCorrelationCore_float sample_x (sample_y ++ [F32.one]).
Proof.
  apply (float_core_ignores_tail sample_x (sample_y ++ [F32.one])).
  unfold fits, Int.max_value. cbn. lia.
Defined.

Lemma for_loop_fails {A : Type} (body : Z -> A -> option A) (j : Z) (count : nat) :
  forall i a, i <= j < i + Z.of_nat count -> (forall a, body j a = None) ->
    for_loop count i body a = None.
Proof.
  induction count as [|k IH]; intros i a Hj E; [lia|].
  cbn [for_loop]. destruct (Z.eq_dec i j) as [->|Ne].
  - now rewrite E.
  - destruct (body i a) as [a'|]; [|reflexivity]. cbn [bind]. apply IH; [lia|exact E].
Qed.

(** X8.  A [y] shorter than [x] is read past its end: already the call
    for offset 0 indexes [y[y.size()]]. *)
Theorem float_core_short_y (x y : list F32.float) :
  fits x -> (length y < length x)%nat ->
  GetCrossCorrelationForOffset x y 0 = None
  /\ GetCrossCorrelationCore_float x y = None.
Proof.
  intros Hn Hl. unfold fits in Hn.
  assert (K : GetCrossCorrelationForOffset x y 0 = None).
  { unfold GetCrossCorrelationForOffset, kernel_sums.
    rewrite int_of_size_small by exact Hn.
    rewrite two_pass_offset_zero by lia. unfold for_range.
    rewrite (for_loop_fails _ (Z.of_nat (length y))); [reflexivity|lia|].
    intros a. unfold kernel_body. destruct (Vec.get x _); [|reflexivity]. cbn [bind].
    unfold Int.add. rewrite Z.add_0_r, int_wrap_small by (unfold Int.min_value; lia).
    unfold Vec.get. destruct (Z.ltb_spec (Z.of_nat (length y)) 0) as [|_]; [reflexivity|].
    rewrite Nat2Z.id. now rewrite (proj2 (nth_error_None y (length y))) by lia. }
  split; [exact K|].
  unfold GetCrossCorrelationCore_float.
  rewrite for_range_first_fails; [reflexivity|lia|].
  change (Int.wrap 0) with 0. now rewrite K.
Qed.

Lemma float_core_short_y_witness :
  GetCrossCorrelationForOffset sample_x [F32.one] 0 = None
  /\ GetCrossCorrelationCore_float sample_x [F32.one] = None.
Proof.
  apply (float_core_short_y sample_x [F32.one]).
  - unfold fits, Int.max_value. cbn. lia.
  - cbn. lia.
Defined.

(** ** The sign of the kernel's value *)










(** ** The order of [<] on floats *)

Lemma ltb_irrefl (x : F32.float) : F32.ltb x x = false.
Proof.
  unfold F32.ltb, SFltb. destruct x as [s|s| |s m e]; cbn [SFcompare];
    try (destruct s; reflexivity); try reflexivity.
  destruct s; rewrite Z.compare_refl;
    change (Pos.compare_cont Eq m m) with (Pos.compare m m);
    now rewrite Pos.compare_refl.
Qed.

Lemma ltb_not_nan (x y : F32.float) :
  F32.ltb x y = true -> F32.is_nan x = false /\ F32.is_nan y = false.
Proof.
  unfold F32.ltb, SFltb.
  destruct x as [s|s| |s m e], y as [s'|s'| |s' m' e']; cbn; intros H;
    try discriminate; now split.
Qed.

Lemma compare_cont_eq (m1 m2 : positive) : Pos.compare_cont Eq m1 m2 = Eq -> m1 = m2.
Proof. apply Pos.compare_eq. Qed.

Lemma compare_cont_antisym (m1 m2 : positive) :
  Pos.compare_cont Eq m2 m1 = CompOpp (Pos.compare_cont Eq m1 m2).
Proof. apply Pos.compare_antisym. Qed.

(** [<] is the strict part of a total preorder on the floats that are not
    NaN: what is below [y] is below everything that is not below [y]. *)
Lemma ltb_below (x y z : F32.float) :
  F32.ltb x y = true -> F32.ltb z y = false -> F32.is_nan z = false ->
  F32.ltb x z = true.
Proof.
  unfold F32.ltb, SFltb.
  destruct x as [sx|sx| |sx mx ex], y as [sy|sy| |sy my ey], z as [sz|sz| |sz mz ez];
    cbn [SFcompare F32.is_nan]; try discriminate;
    try (destruct sx; discriminate); try (destruct sy; discriminate);
    try (destruct sx, sy; discriminate);
    try (destruct sy, sz; (discriminate || reflexivity));
    try (destruct sx, sz; (discriminate || reflexivity));
    try (destruct sx, sy, sz; (discriminate || reflexivity)).
  all: destruct sx, sy, sz; try discriminate; try reflexivity.
  all: destruct (Z.compare_spec ex ey), (Z.compare_spec ez ey), (Z.compare_spec ex ez);
    try discriminate; try reflexivity; try lia; subst.
  all: rewrite (compare_cont_antisym my mz);
    destruct (Pos.compare_cont Eq mx my) eqn:A; try discriminate;
    destruct (Pos.compare_cont Eq my mz) eqn:B; try discriminate; cbn [CompOpp]; intros _ _ _;
    try (apply compare_cont_eq in B; subst; now rewrite A);
    first [now rewrite (compare_cont_lt_trans _ _ _ A B)
          |now rewrite (compare_cont_gt_trans _ _ _ A B)].
Qed.

(** On the floats that are neither NaN nor negative, two values neither of
    which is below the other are the same value. *)
Lemma ltb_antisym (x y : F32.float) :
  nonneg x -> nonneg y -> F32.ltb x y = false -> F32.ltb y x = false -> x = y.
Proof.
  unfold nonneg, F32.ltb, SFltb. intros [Nx Sx] [Ny Sy].
  destruct x as [sx|sx| |sx mx ex], y as [sy|sy| |sy my ey];
    cbn [F32.is_nan F32.sign] in *; subst; try discriminate; cbn [SFcompare];
    try discriminate; try reflexivity.
  destruct (Z.compare_spec ex ey), (Z.compare_spec ey ex); try discriminate; try lia.
  subst. rewrite (compare_cont_antisym mx my).
  destruct (Pos.compare_cont Eq mx my) eqn:A; cbn [CompOpp]; try discriminate.
  apply compare_cont_eq in A. now subst.
Qed.

(** ** The running maximum of the float core *)

(** What [max = std::max(max, v)] leaves in [max] after the values [f d],
    [d] in [l], starting from [m]. *)
Lemma running_max (f : nat -> F32.float) (l : list nat) : forall m,
  F32.is_nan m = false ->
  let r := fold_left (fun m d => F32.max m (f d)) l m in
  F32.is_nan r = false
  /\ F32.ltb r m = false
  /\ (forall d, In d l -> F32.ltb r (f d) = false)
  /\ (r = m \/ exists d, In d l /\ r = f d).
Proof.
  induction l as [|d l IH]; intros m Hm; cbn [fold_left].
  - repeat split; [exact Hm|apply ltb_irrefl|contradiction|now left].
  - assert (Hm' : F32.is_nan (F32.max m (f d)) = false).
    { unfold F32.max. destruct (F32.ltb m (f d)) eqn:L; [|exact Hm].
      now apply ltb_not_nan in L. }
    destruct (IH _ Hm') as [N [B [U A]]]. clear IH.
    set (r := fold_left (fun m d => F32.max m (f d)) l (F32.max m (f d))) in *.
    unfold F32.max in B, A. destruct (F32.ltb m (f d)) eqn:L.
    + repeat split; [exact N| | |].
      * destruct (F32.ltb r m) eqn:C; [|reflexivity].
        now rewrite (ltb_trans _ _ _ C L) in B.
      * intros d' [<-|Hd]; [exact B|now apply U].
      * right. destruct A as [A|[d' [Hd A]]]; [exists d|exists d']; split; auto;
          [now left|now right].
    + repeat split; [exact N|exact B| |].
      * intros d' [<-|Hd]; [|now apply U].
        destruct (F32.ltb r (f d)) eqn:C; [|reflexivity].
        now rewrite (ltb_below _ _ _ C L Hm) in B.
      * destruct A as [A|[d' [Hd A]]]; [now left|right; exists d'; split; auto; now right].
Qed.

(** X10.  The float core returns the square root of the largest value the
    kernel gives over the offsets [0 .. n-1], or of 0 when none is above
    0: no kernel value exceeds the maximum, and the maximum is 0 or one of
    them. *)
Theorem float_core_is_maximum (x y : list F32.float) :
  length x = length y -> fits x ->
  exists M,
    GetCrossCorrelationCore_float x y = Some (F32.sqrt M)
    /\ (forall (d : nat) (v : F32.float),
          (d < length x)%nat ->
          GetCrossCorrelationForOffset x y (Z.of_nat d) = Some v ->
          F32.ltb M v = false)
    /\ (M = F32.zero
        \/ exists d, (d < length x)%nat
                     /\ GetCrossCorrelationForOffset x y (Z.of_nat d) = Some M).
Proof.
  intros Hl Hn. exists (max_over_offsets x y).
  split; [now apply float_core_closed|].
  destruct (running_max (offset_value x y) (seq 0 (length x)) F32.zero eq_refl)
    as [_ [_ [U A]]].
  fold (max_over_offsets x y) in U, A. split.
  - intros d v Hd E. rewrite offset_kernel_closed in E by assumption.
    injection E as <-. apply U. apply in_seq. lia.
  - destruct A as [A|[d [Hd A]]]; [now left|right].
    apply in_seq in Hd. exists d. split; [lia|].
    rewrite offset_kernel_closed by (assumption || lia). now rewrite A.
Qed.

Lemma float_core_is_maximum_witness :
  exists M,
    GetCrossCorrelationCore_float sample_x sample_y = Some (F32.sqrt M)
    /\ (forall (d : nat) (v : F32.float),
          (d < length sample_x)%nat ->
          GetCrossCorrelationForOffset sample_x sample_y (Z.of_nat d) = Some v ->
          F32.ltb M v = false)
    /\ (M = F32.zero
        \/ exists d, (d < length sample_x)%nat
                     /\ GetCrossCorrelationForOffset sample_x sample_y (Z.of_nat d) = Some M).
Proof.
  refine (float_core_is_maximum sample_x sample_y eq_refl _).
  unfold fits, Int.max_value. cbn. lia.
Defined.

(** ** The integer sums of the byte core *)

Lemma int_wrap_add_l (a b : Z) : Int.wrap (Int.wrap a + b) = Int.wrap (a + b).
Proof.
  unfold Int.wrap. f_equal.
  replace ((a + 2 ^ 31) mod 2 ^ 32 - 2 ^ 31 + b + 2 ^ 31)
    with ((a + 2 ^ 31) mod 2 ^ 32 + b) by lia.
  rewrite Zplus_mod_idemp_l. f_equal. lia.
Qed.

Lemma sum_bytes_from (l : list byte) : forall z,
  fold_left (fun s b => Int.add s (byte_val b)) l (Int.wrap z)
  = Int.wrap (z + exact_sum l).
Proof.
  induction l as [|b l IH]; intros z; cbn [fold_left exact_sum map sum_list].
  - now rewrite Z.add_0_r.
  - unfold Int.add at 2. rewrite int_wrap_add_l, IH. f_equal.
    unfold exact_sum. lia.
Qed.

(** The [int] sum is the sum of the bytes reduced to 32 bits. *)
Lemma sum_bytes_wrap (l : list byte) : sum_bytes l = Int.wrap (exact_sum l).
Proof.
  unfold sum_bytes. change 0 with (Int.wrap 0) at 1. now rewrite sum_bytes_from.
Qed.

Lemma exact_sum_app (l1 l2 : list byte) : exact_sum (l1 ++ l2) = exact_sum l1 + exact_sum l2.
Proof.
  unfold exact_sum. rewrite map_app.
  induction (map byte_val l1) as [|c t IH]; cbn [app sum_list]; lia.
Qed.

Lemma exact_sum_bounds (l : list byte) : 0 <= exact_sum l <= 255 * Z.of_nat (length l).
Proof.
  unfold exact_sum. induction l as [|b l IH]; cbn [map sum_list length]; [lia|].
  pose proof (byte_val_range b). lia.
Qed.

(** X11.  Up to 8421504 bytes (255 times the length is an [int]) the two
    sums of lines 37-42 are the mathematical sums of the first [length]
    bytes: the additions never overflow. *)
Theorem sums_do_not_overflow (x y : list byte) (n : nat) :
  (n <= length x)%nat -> (n <= length y)%nat ->
  255 * Z.of_nat n <= Int.max_value ->
  for_range 0 (Z.of_nat n) (sum_body x y) (0, 0)
  = Some (exact_sum (firstn n x), exact_sum (firstn n y)).
Proof.
  intros Hx Hy Hn. rewrite sum_loop_closed by assumption.
  rewrite !sum_bytes_wrap.
  pose proof (exact_sum_bounds (firstn n x)) as Bx.
  pose proof (exact_sum_bounds (firstn n y)) as By.
  rewrite length_firstn, Nat.min_l in Bx, By by assumption.
  now rewrite !int_wrap_small by (unfold Int.min_value; lia).
Qed.

Lemma sums_do_not_overflow_witness :
  for_range 0 (Z.of_nat 3) (sum_body (bytes [255; 255; 255]%N) (bytes [1; 2; 3; 4]%N)) (0, 0)
  = Some (exact_sum (firstn 3 (bytes [255; 255; 255]%N)),
          exact_sum (firstn 3 (bytes [1; 2; 3; 4]%N))).
Proof.
  apply (sums_do_not_overflow (bytes [255; 255; 255]%N) (bytes [1; 2; 3; 4]%N) 3);
    unfold Int.max_value; cbn; lia.
Defined.

(** ** The byte core on a given length *)

Lemma core_closed (x y : list byte) (n : nat) :
  (n <= length x)%nat -> (n <= length y)%nat -> fits x -> fits y ->
  GetCrossCorrelationCore x y (Z.of_nat n) =
  Some (F32.sqrt (max_over_offsets (mean_subtracted (firstn n x))
                                   (mean_subtracted (firstn n y)))).
Proof.
  intros Hna Hnb Ha Hb. unfold fits in Ha, Hb.
  unfold GetCrossCorrelationCore.
  rewrite !int_of_size_small by lia.
  destruct (Z.leb_spec (Z.of_nat n) (Z.of_nat (length x))) as [_|N]; [cbn [assert bind]|lia].
  destruct (Z.leb_spec (Z.of_nat n) (Z.of_nat (length y))) as [_|N]; [cbn [assert bind]|lia].
  rewrite sum_loop_closed by assumption. cbn [bind fst snd].
  unfold Vec.make. destruct (Z.ltb_spec (Z.of_nat n) 0) as [N|_]; [lia|]. cbn [bind].
  unfold for_range. rewrite Z.sub_0_r, Nat2Z.id.
  change 0 with (Z.of_nat 0) at 1.
  pose proof (center_loop_closed x y
                (F32.div (F32.of_int (sum_bytes (firstn n x))) (F32.of_int (Z.of_nat n)))
                (F32.div (F32.of_int (sum_bytes (firstn n y))) (F32.of_int (Z.of_nat n)))
                n 0 [] [] eq_refl eq_refl) as C.
  cbn [app skipn] in C. rewrite C by lia. clear C. cbn [bind fst snd].
  rewrite float_core_closed.
  - unfold mean_subtracted, mean_of. now rewrite !length_firstn, !Nat.min_l by lia.
  - now rewrite !centered_length, !length_firstn, !Nat.min_l by lia.
  - unfold fits. rewrite centered_length, length_firstn, Nat.min_l by lia. lia.
Qed.

Lemma fits_firstn {A : Type} (n : nat) (l : list A) : fits l -> fits (firstn n l).
Proof. unfold fits. rewrite length_firstn. lia. Qed.

(** X12.  Called with a length within both vectors, the byte core is the
    public function on the two prefixes of that length. *)
Theorem core_is_score_of_prefixes (x y : list byte) (n : nat) :
  (n <= length x)%nat -> (n <= length y)%nat -> fits x -> fits y ->
  GetCrossCorrelationCore x y (Z.of_nat n) = GetCrossCorrelation (firstn n x) (firstn n y).
Proof.
  intros Hx Hy Fx Fy. rewrite core_closed by assumption.
  rewrite cross_correlation_closed by now apply fits_firstn.
  rewrite !length_firstn.
  replace (Nat.min (Nat.min n (length x)) (Nat.min n (length y))) with n by lia.
  now rewrite !firstn_firstn, Nat.min_id.
Qed.

Lemma core_is_score_of_prefixes_witness :
  GetCrossCorrelationCore (bytes [1; 2; 3; 4]%N) (bytes [4; 3; 2; 1; 0]%N) (Z.of_nat 3)
  = GetCrossCorrelation (firstn 3 (bytes [1; 2; 3; 4]%N)) (firstn 3 (bytes [4; 3; 2; 1; 0]%N)).
Proof.
  apply (core_is_score_of_prefixes (bytes [1; 2; 3; 4]%N) (bytes [4; 3; 2; 1; 0]%N) 3);
    unfold fits, Int.max_value; cbn; lia.
Defined.

(** X13.  A length above the size of a vector stops at an assertion; a
    negative length passes both assertions and both loops, which do not
    run, and stops at the construction of [fx]. *)
Theorem core_rejects_bad_length (x y : list byte) (len : Z) :
  fits x -> fits y ->
  len < 0 \/ Z.of_nat (length x) < len \/ Z.of_nat (length y) < len ->
  GetCrossCorrelationCore x y len = None.
Proof.
  intros Fx Fy H. unfold fits in Fx, Fy. unfold GetCrossCorrelationCore.
  rewrite !int_of_size_small by lia.
  destruct (Z.leb_spec len (Z.of_nat (length x))) as [Lx|_]; [|reflexivity].
  destruct (Z.leb_spec len (Z.of_nat (length y))) as [Ly|_]; [|reflexivity].
  cbn [assert bind]. assert (N : len < 0) by lia.
  rewrite for_range_empty by lia. cbn [bind].
  unfold Vec.make. destruct (Z.ltb_spec len 0) as [_|P]; [reflexivity|lia].
Qed.

Lemma core_rejects_bad_length_witness :
  GetCrossCorrelationCore (bytes [1; 2; 3]%N) (bytes [1; 2]%N) (-1) = None
  /\ GetCrossCorrelationCore (bytes [1; 2; 3]%N) (bytes [1; 2]%N) 3 = None.
Proof.
  split.
  - apply (core_rejects_bad_length (bytes [1; 2; 3]%N) (bytes [1; 2]%N) (-1));
      unfold fits, Int.max_value; cbn; lia.
  - apply (core_rejects_bad_length (bytes [1; 2; 3]%N) (bytes [1; 2]%N) 3);
      unfold fits, Int.max_value; cbn; lia.
Defined.

(** ** What the score depends on *)

(** X14.  Only the common prefix counts: the bytes of the longer input
    past the length of the shorter one leave the score as it is. *)
Theorem score_ignores_tail (a b ta tb : list byte) :
  fits (a ++ ta) -> fits (b ++ tb) ->
  length a = length b -> ta = [] \/ tb = [] ->
  GetCrossCorrelation (a ++ ta) (b ++ tb) = GetCrossCorrelation a b.
Proof.
  intros Fa Fb Hl Ht.
  assert (Fa' : fits a) by (unfold fits in *; rewrite length_app in Fa; lia).
  assert (Fb' : fits b) by (unfold fits in *; rewrite length_app in Fb; lia).
  rewrite !cross_correlation_closed by assumption.
  rewrite !length_app, <- Hl.
  replace (Nat.min (length a + length ta) (length a + length tb)) with (length a)
    by (destruct Ht; subst; cbn [length]; lia).
  rewrite Nat.min_id, firstn_all.
  rewrite firstn_app, Nat.sub_diag, firstn_all, app_nil_r.
  rewrite Hl at 1 2. rewrite firstn_app, Nat.sub_diag, !firstn_all, app_nil_r.
  reflexivity.
Qed.

Lemma score_ignores_tail_witness :
  GetCrossCorrelation (bytes [1; 2; 3]%N ++ []) (bytes [3; 1; 2]%N ++ bytes [9; 9]%N)
  = GetCrossCorrelation (bytes [1; 2; 3]%N) (bytes [3; 1; 2]%N).
Proof.
  apply (score_ignores_tail (bytes [1; 2; 3]%N) (bytes [3; 1; 2]%N) [] (bytes [9; 9]%N)).
  - unfold fits, Int.max_value. cbn. lia.
  - unfold fits, Int.max_value. cbn. lia.
  - reflexivity.
  - now left.
Defined.

(** ** Rotating the second input *)

Lemma rotate_length {A : Type} (k : nat) (l : list A) : length (rotate k l) = length l.
Proof.
  unfold rotate. rewrite length_app, length_skipn, length_firstn. lia.
Qed.

Lemma rotate_beyond {A : Type} (k : nat) (l : list A) :
  (length l <= k)%nat -> rotate k l = l.
Proof.
  intros H. unfold rotate. now rewrite skipn_all2, firstn_all2 by exact H.
Qed.

Lemma exact_sum_rotate (k : nat) (l : list byte) : exact_sum (rotate k l) = exact_sum l.
Proof.
  unfold rotate. rewrite exact_sum_app.
  rewrite <- (firstn_skipn k l) at 3. rewrite exact_sum_app. lia.
Qed.

Lemma centered_rotate (m : F32.float) (k : nat) (l : list byte) :
  centered m (rotate k l) = rotate k (centered m l).
Proof.
  unfold centered, rotate. now rewrite map_app, skipn_map, firstn_map.
Qed.

(** The integer sum, and with it the mean, does not depend on where the
    sequence starts. *)
Lemma mean_subtracted_rotate (k : nat) (l : list byte) :
  mean_subtracted (rotate k l) = rotate k (mean_subtracted l).
Proof.
  unfold mean_subtracted, mean_of.
  rewrite rotate_length, !sum_bytes_wrap, exact_sum_rotate. apply centered_rotate.
Qed.

Lemma shift_mod (i d k n : nat) :
  (0 < n)%nat -> (((i + d) mod n + k) mod n = (i + (d + k) mod n) mod n)%nat.
Proof.
  intros Hn. rewrite Nat.Div0.add_mod_idemp_l, Nat.Div0.add_mod_idemp_r. f_equal. lia.
Qed.

Lemma y_at_rotate (y : list F32.float) (k d i : nat) :
  (k < length y)%nat ->
  y_at (rotate k y) (length y) d i = y_at y (length y) ((d + k) mod length y) i.
Proof.
  intros Hk. unfold y_at.
  rewrite rotate_nth by (exact Hk || (apply Nat.mod_upper_bound; lia)).
  f_equal. apply shift_mod. lia.
Qed.

(** Offset [d] against the rotated [y] pairs the same elements, in the
    same order, as offset [d + k] (cyclically) against [y]. *)
Lemma offset_value_rotate (x y : list F32.float) (k d : nat) :
  length x = length y -> (k < length y)%nat ->
  offset_value x (rotate k y) d = offset_value x y ((d + k) mod length y).
Proof.
  intros Hl Hk. unfold offset_value, num_spec, deny_spec. rewrite Hl.
  f_equal.
  - apply sum_over_ext. intros i _. now rewrite y_at_rotate.
  - apply sum_over_ext. intros i _. now rewrite y_at_rotate.
Qed.

Lemma fold_left_ext_in {S I : Type} (f g : S -> I -> S) (l : list I) :
  (forall s i, In i l -> f s i = g s i) -> forall s, fold_left f l s = fold_left g l s.
Proof.
  induction l as [|i l IH]; intros E s; [reflexivity|].
  cbn [fold_left]. rewrite E by now left. apply IH. intros s' j Hj. apply E. now right.
Qed.

(** The running maximum from [+0] does not depend on the order in which
    the values come. *)
Lemma running_max_order (f : nat -> F32.float) (l l' : list nat) :
  (forall d, In d l <-> In d l') ->
  fold_left (fun m d => F32.max m (f d)) l F32.zero
  = fold_left (fun m d => F32.max m (f d)) l' F32.zero.
Proof.
  intros E.
  destruct (running_max f l F32.zero eq_refl) as [_ [B [U A]]].
  destruct (running_max f l' F32.zero eq_refl) as [_ [B' [U' A']]].
  set (r := fold_left _ l F32.zero) in *. set (r' := fold_left _ l' F32.zero) in *.
  assert (Nz : nonneg F32.zero) by (split; reflexivity).
  assert (N : nonneg r).
  { apply fold_left_invariant; [|exact Nz]. intros m d _ Hm. now apply max_nonneg. }
  assert (N' : nonneg r').
  { apply fold_left_invariant; [|exact Nz]. intros m d _ Hm. now apply max_nonneg. }
  apply ltb_antisym; try assumption.
  - destruct A' as [->|[d [Hd ->]]]; [exact B|]. apply U. now apply E.
  - destruct A as [->|[d [Hd ->]]]; [exact B'|]. apply U'. now apply E.
Qed.

Lemma max_over_offsets_rotate (x y : list F32.float) (k : nat) :
  length x = length y -> (k < length y)%nat ->
  max_over_offsets x (rotate k y) = max_over_offsets x y.
Proof.
  intros Hl Hk. unfold max_over_offsets.
  rewrite (fold_left_ext_in _ (fun m d => F32.max m (offset_value x y ((d + k) mod length y)))).
  2:{ intros m d _. now rewrite offset_value_rotate. }
  rewrite <- (fold_left_over_map (fun m e => F32.max m (offset_value x y e))
                (fun d => ((d + k) mod length y)%nat)).
  apply running_max_order. intros e. rewrite in_map_iff, in_seq, Hl. split.
  - intros [d [<- Hd]]. split; [lia|]. cbn [Nat.add]. apply Nat.mod_upper_bound. lia.
  - intros [_ He]. cbn [Nat.add] in He.
    exists ((e + mirror (length y) k) mod length y)%nat. split.
    + now apply mirror_back.
    + apply in_seq. split; [lia|]. cbn [Nat.add]. apply Nat.mod_upper_bound. lia.
Qed.

(** X15.  Rotating the second input cyclically leaves the score unchanged,
    bit for bit: the kernel is evaluated on the same element pairs in the
    same order, only at other offsets, and the maximum does not depend on
    the order of the offsets. *)
Theorem score_rotation_invariant (a b : list byte) (k : nat) :
  length a = length b -> fits a ->
  GetCrossCorrelation a (rotate k b) = GetCrossCorrelation a b.
Proof.
  intros Hl Fa.
  destruct (Nat.le_gt_cases (length b) k) as [Ge|Lt]; [now rewrite rotate_beyond|].
  assert (Fb : fits b) by (unfold fits in *; now rewrite <- Hl).
  assert (Fr : fits (rotate k b)) by (unfold fits in *; now rewrite rotate_length).
  rewrite !cross_correlation_closed by assumption.
  rewrite rotate_length, <- Hl, Nat.min_id, firstn_all.
  rewrite (firstn_all2 (rotate k b)) by (rewrite rotate_length; lia).
  rewrite (firstn_all2 b) by lia.
  rewrite mean_subtracted_rotate, max_over_offsets_rotate; [reflexivity| |].
  - now rewrite !mean_subtracted_length.
  - now rewrite mean_subtracted_length.
Qed.

Lemma score_rotation_invariant_witness :
  GetCrossCorrelation (bytes [3; 1; 1; 7]%N) (rotate 1 (bytes [1; 3; 0; 5]%N))
  = GetCrossCorrelation (bytes [3; 1; 1; 7]%N) (bytes [1; 3; 0; 5]%N).
Proof.
  apply (score_rotation_invariant (bytes [3; 1; 1; 7]%N) (bytes [1; 3; 0; 5]%N) 1).
  - reflexivity.
  - unfold fits, Int.max_value. cbn. lia.
Defined.

(** ** The pointer overload *)

Lemma sum_body_past_end (x y : list byte) (i : Z) (s : Z * Z) :
  Z.of_nat (length x) <= i \/ Z.of_nat (length y) <= i -> sum_body x y i s = None.
Proof.
  intros H. unfold sum_body, Vec.get. destruct (Z.ltb_spec i 0) as [|P]; [reflexivity|].
  destruct H as [H|H].
  - now rewrite (proj2 (nth_error_None x (Z.to_nat i))) by lia.
  - rewrite (proj2 (nth_error_None y (Z.to_nat i))) by lia.
    now destruct (nth_error x (Z.to_nat i)).
Qed.

(** X16.  On raw pointers the core does what the vector overload does
    whenever that one's assertions hold; with a length beyond one of the
    two arrays the first loop reads past the end of that array. *)
Theorem pointer_core (x y : list byte) (len : Z) :
  fits x -> fits y ->
  (len <= Z.of_nat (length x) -> len <= Z.of_nat (length y) ->
   GetCrossCorrelationCore_ptr x y len = GetCrossCorrelationCore x y len)
  /\ (Z.of_nat (length x) < len \/ Z.of_nat (length y) < len ->
      GetCrossCorrelationCore_ptr x y len = None).
Proof.
  intros Fx Fy. unfold fits in Fx, Fy. split.
  - intros Hx Hy. unfold GetCrossCorrelationCore, GetCrossCorrelationCore_ptr.
    rewrite !int_of_size_small by lia.
    destruct (Z.leb_spec len (Z.of_nat (length x))) as [_|N]; [|lia].
    destruct (Z.leb_spec len (Z.of_nat (length y))) as [_|N]; [|lia].
    reflexivity.
  - intros H. unfold GetCrossCorrelationCore_ptr, for_range.
    rewrite (for_loop_fails _ (Z.min (Z.of_nat (length x)) (Z.of_nat (length y))));
      [reflexivity|lia|].
    intros s. apply sum_body_past_end. lia.
Qed.

Lemma pointer_core_witness :
  GetCrossCorrelationCore_ptr (bytes [1; 2; 3]%N) (bytes [3; 1; 2; 7]%N) 3
  = GetCrossCorrelationCore (bytes [1; 2; 3]%N) (bytes [3; 1; 2; 7]%N) 3
  /\ GetCrossCorrelationCore_ptr (bytes [1; 2; 3]%N) (bytes [3; 1; 2; 7]%N) 4 = None.
Proof.
  assert (F3 : fits (bytes [1; 2; 3]%N)) by (unfold fits, Int.max_value; cbn; lia).
  assert (F4 : fits (bytes [3; 1; 2; 7]%N)) by (unfold fits, Int.max_value; cbn; lia).
  split.
  - apply (proj1 (pointer_core (bytes [1; 2; 3]%N) (bytes [3; 1; 2; 7]%N) 3 F3 F4)); cbn; lia.
  - apply (proj2 (pointer_core (bytes [1; 2; 3]%N) (bytes [3; 1; 2; 7]%N) 4 F3 F4)); cbn; lia.
Defined.

(** ** The test program *)

Lemma fill_loop_closed (dis : nat -> Z) (c : nat) : forall k p1 p2,
  length p1 = k -> length p2 = k ->
  for_loop c (Z.of_nat k) (fill_body dis)
    (p1 ++ repeat x00 c, p2 ++ repeat x00 c, (2 * k)%nat)
  = Some (p1 ++ map (fun i => to_uint8 (dis (2 * i + 0)%nat)) (seq k c),
          p2 ++ map (fun i => to_uint8 (dis (2 * i + 1)%nat)) (seq k c),
          (2 * (k + c))%nat).
Proof.
  induction c as [|c IH]; intros k p1 p2 H1 H2.
  - cbn [for_loop repeat seq map]. now rewrite Nat.add_0_r.
  - cbn [for_loop repeat seq map]. unfold fill_body at 1.
    rewrite <- H1 at 1. rewrite set_app. cbn [bind].
    rewrite <- H2 at 1. rewrite set_app. cbn [bind].
    replace (Z.of_nat k + 1) with (Z.of_nat (S k)) by lia.
    replace (S (S (2 * k))) with (2 * S k)%nat by lia.
    specialize (IH (S k) (p1 ++ [to_uint8 (dis (2 * k)%nat)])
                  (p2 ++ [to_uint8 (dis (S (2 * k)))])).
    rewrite <- !app_assoc in IH. cbn [app] in IH. rewrite IH.
    + rewrite Nat.add_0_r. replace (2 * k + 1)%nat with (S (2 * k)) by lia.
      replace (S k + c)%nat with (k + S c)%nat by lia. reflexivity.
    + rewrite length_app. cbn. lia.
    + rewrite length_app. cbn. lia.
Qed.

Lemma drawn_length (dis : nat -> Z) (parity n : nat) : length (drawn dis parity n) = n.
Proof. unfold drawn. now rewrite length_map, length_seq. Qed.

(** X17.  Whatever the random draws, [main] runs to its end and returns 0:
    no assertion fails and no index leaves its vector.  It prints 1 for
    the two fixed correlations, 1 and 0 for the two distances, and for the
    random vectors a correlation that is neither NaN nor negative. *)
Theorem main_completes (popcnt : bool) (dis : nat -> Z) :
  exists (out : list output) (r : F32.float),
    main popcnt dis = Some (0, out)
    /\ values out = [Float F32.one; Hex; UInt64 0xAAAA; UInt64 0xAAAB; Dec; Int32 1;
                     Float F32.one; Int32 0; Float r]
    /\ GetCrossCorrelation (drawn dis 0 1000) (drawn dis 1 1000) = Some r
    /\ F32.is_nan r = false /\ F32.sign r = false.
Proof.
  assert (E1 : GetCrossCorrelation (map to_uint8 [1; 2; 3; 4; 5; 6; 7; 8])
                 (map to_uint8 [2; 3; 4; 5; 6; 7; 8; 9]) = Some F32.one)
    by (vm_compute; reflexivity).
  assert (E3 : GetCrossCorrelation (map to_uint8 [1; 2; 3; 4; 5; 6; 7; 8])
                 (map to_uint8 [1; 2; 3; 4; 5; 6; 7; 8]) = Some F32.one)
    by (vm_compute; reflexivity).
  assert (D2 : GetHammingDistance_u64_u64 popcnt 0xAAAA 0xAAAB = 1)
    by (destruct popcnt; vm_compute; reflexivity).
  assert (D3 : GetHammingDistance_u64_u64 popcnt 0xAAAA 0xAAAA = 0)
    by (destruct popcnt; vm_compute; reflexivity).
  assert (F0 : fits (drawn dis 0 1000))
    by (unfold fits, Int.max_value; rewrite drawn_length; lia).
  assert (F1 : fits (drawn dis 1 1000))
    by (unfold fits, Int.max_value; rewrite drawn_length; lia).
  pose proof (cross_correlation_closed _ _ F0 F1) as E4.
  set (M := max_over_offsets _ _) in E4.
  assert (N : nonneg (F32.sqrt M)) by (apply sqrt_nonneg, max_over_offsets_nonneg).
  assert (L : for_range 0 1000 (fill_body dis) (repeat x00 1000, repeat x00 1000, 0%nat)
              = Some (drawn dis 0 1000, drawn dis 1 1000, 2000%nat)).
  { exact (fill_loop_closed dis 1000 0 [] [] eq_refl eq_refl). }
  eexists. exists (F32.sqrt M). split; [|split; [|split; [exact E4|exact N]]].
  - unfold main. rewrite E1, E3, D2, D3. cbn [bind]. rewrite L. cbn [bind].
    rewrite E4. cbn [bind]. reflexivity.
  - reflexivity.
Qed.
